(** * Haystack.js: a shallow embedding of the fuzzy search engine

    The development follows src/Haystack.js function by function.

    - JavaScript strings are modelled as [string]: sequences of 8-bit code
      units, read as Latin-1.  The built-in string methods the engine calls
      ([trim], [toLowerCase], [split], [indexOf], [charAt], [substr],
      [slice], [join]) are written out below for that alphabet.
    - Arrays are lists, read with stdpp's lookup [l !! i] and written with
      [arr_set], which appends when the index is the current length, as a
      JavaScript array does.
    - A plain object used as a mapping is an association list in the order
      in which [for (key in source)] visits its keys.
    - [undefined] results are [None]; a thrown [TypeError] is a constructor
      of the completion type of [search]. *)

From Stdlib Require Import ZArith Ascii String List Bool Lia.
From stdpp Require Import list strings gmap.

(** ** JavaScript built-ins used by the engine *)

Module JS.

(** [s.length] *)
Definition length (s : string) : nat := String.length s.

(** [s.charAt(i)]: the one-character string at [i], or the empty string
    when [i] is out of range. *)
Definition charAt (s : string) (i : nat) : string :=
  match String.get i s with
  | Some c => String c EmptyString
  | None => EmptyString
  end.

(** [s.indexOf(pat)]: first position of [pat] in [s], or -1. *)
Definition indexOf (s pat : string) : Z :=
  match String.index 0 pat s with
  | Some i => Z.of_nat i
  | None => (-1)%Z
  end.

(** Upper-case letters of Latin-1: A-Z, and U+00C0..U+00DE but U+00D7. *)
Definition is_upper (c : ascii) : bool :=
  let k := nat_of_ascii c in
  ((65 <=? k) && (k <=? 90))
  || ((192 <=? k) && (k <=? 222) && negb (k =? 215)).

Definition lower_char (c : ascii) : ascii :=
  if is_upper c then ascii_of_nat (nat_of_ascii c + 32) else c.

(** [s.toLowerCase()] *)
Fixpoint toLowerCase (s : string) : string :=
  match s with
  | EmptyString => EmptyString
  | String c s' => String (lower_char c) (toLowerCase s')
  end.

(** White space and line terminators of ECMAScript that fit in 8 bits:
    TAB, LF, VT, FF, CR, SP and NBSP. *)
Definition is_space (c : ascii) : bool :=
  let k := nat_of_ascii c in
  ((9 <=? k) && (k <=? 13)) || (k =? 32) || (k =? 160).

Fixpoint trimStart (s : string) : string :=
  match s with
  | EmptyString => EmptyString
  | String c s' => if is_space c then trimStart s' else s
  end.

(** Drops trailing white space: a character is kept when something
    non-blank follows it or when it is itself non-blank. *)
Fixpoint trimEnd (s : string) : string :=
  match s with
  | EmptyString => EmptyString
  | String c s' =>
      match trimEnd s' with
      | EmptyString => if is_space c then EmptyString else String c EmptyString
      | t => String c t
      end
  end.

(** [s.trim()] *)
Definition trim (s : string) : string := trimEnd (trimStart s).

(** [s.split(sep)] for a non-empty separator: [skip] counts the characters
    of a separator occurrence still to be passed over, [cur] is the piece
    being collected. *)
Fixpoint split_go (sep s : string) (skip : nat) (cur : string) : list string :=
  match s with
  | EmptyString => [cur]
  | String c s' =>
      match skip with
      | S k => split_go sep s' k cur
      | O =>
          if String.prefix sep s
          then cur :: split_go sep s' (String.length sep - 1) EmptyString
          else split_go sep s' 0 (cur +:+ String c EmptyString)
      end
  end.

Fixpoint chars (s : string) : list string :=
  match s with
  | EmptyString => []
  | String c s' => String c EmptyString :: chars s'
  end.

(** [s.split(sep)]; the empty separator splits into code units. *)
Definition split (s sep : string) : list string :=
  match sep with
  | EmptyString => chars s
  | _ => split_go sep s 0 EmptyString
  end.

(** [a.join(sep)] on an array of strings. *)
Fixpoint join (sep : string) (a : list string) : string :=
  match a with
  | [] => EmptyString
  | [x] => x
  | x :: t => x +:+ sep +:+ join sep t
  end.

(** [s.substr(s.length - 1)]: the last character as a string, empty for
    the empty string (a negative start is clamped to 0). *)
Definition lastChar (s : string) : string :=
  String.substring (String.length s - 1) 1 s.

(** [s.slice(0, -1)]: everything but the last character. *)
Definition dropLast (s : string) : string :=
  String.substring 0 (String.length s - 1) s.

(** Truthiness of a string value: only the empty string is falsy. *)
Definition truthy (s : string) : bool :=
  negb (String.eqb s EmptyString).

(** [a[j] = v] on an array: overwrite inside the array, append at its
    end, and leave holes (read here as [hole]) when [j] is further out. *)
Definition arr_set {A} (a : list A) (j : nat) (v hole : A) : list A :=
  if j <? List.length a then <[j := v]> a
  else a ++ replicate (j - List.length a) hole ++ [v].

(** [a.slice(0, e)] for an integer [e]: a negative end counts from the
    end of the array. *)
Definition slice0 {A} (a : list A) (e : Z) : list A :=
  let len := Z.of_nat (List.length a) in
  let final := if (e <? 0)%Z then Z.max (len + e) 0 else Z.min e len in
  take (Z.to_nat final) a.

(** [a.indexOf(x)] on an array of strings, -1 when absent. *)
Fixpoint arr_indexOf (a : list string) (x : string) : Z :=
  match a with
  | [] => (-1)%Z
  | y :: t =>
      if String.eqb y x then 0%Z
      else let r := arr_indexOf t x in
           if (r <? 0)%Z then (-1)%Z else (r + 1)%Z
  end.

End JS.

(** ** Data model *)

(** The [source] argument of [search]: an array of strings, a plain object
    whose values are strings (entries in [for-in] order), or anything else
    (null, a scalar, an object of another class). *)
Inductive Source : Type :=
  | SArray (a : list string)
  | SObject (kv : list (string * string))
  | SOther.

(** [this.options].  [exclusions], when set, is given by the function that
    [query.replace(exclusions, "")] computes for that pattern; [None] is a
    falsy value (null by default). *)
Record Options : Type := mkOptions {
  caseSensitive : bool;
  flexibility : Z;
  stemming : bool;
  exclusions : option (string -> string);
  ignoreStopWords : bool
}.

(** The constructor's [defaults]. *)
Definition defaults : Options :=
  {| caseSensitive := false; flexibility := 2; stemming := false;
     exclusions := None; ignoreStopWords := false |}.

(** How a call of [search] completes. *)
Inductive Completion : Type :=
  | Null
  | Return (results : list string)
  | TypeError.

(** Results of the steps inside [search] that may throw. *)
Inductive Res (A : Type) : Type :=
  | Ok (a : A)
  | Thrown.
Arguments Ok {A} a.
Arguments Thrown {A}.

Definition bind {A B} (r : Res A) (k : A -> Res B) : Res B :=
  match r with
  | Ok a => k a
  | Thrown => Thrown
  end.

Notation "'try' x <- r 'in' k" := (bind r (fun x => k))
  (at level 10, x name, r at level 100, k at level 200).

(** Comparisons of a distance that may be [undefined]: any comparison with
    [undefined] is false. *)
Definition dist_gt (a b : option nat) : bool :=
  match a, b with
  | Some x, Some y => y <? x
  | _, _ => false
  end.

Definition dist_le (a b : option nat) : bool :=
  match a, b with
  | Some x, Some y => x <=? y
  | _, _ => false
  end.

Definition dist_le_num (a : option nat) (t : Z) : bool :=
  match a with
  | Some x => (Z.of_nat x <=? t)%Z
  | None => false
  end.

Definition dist_ge0 (a : option nat) : bool :=
  match a with
  | Some _ => true
  | None => false
  end.

(** ** Private methods *)

(** The table [cost] of [levenshtein]: an array of rows. *)
Abbreviation Table := (list (list nat)).

(** [cost[i][j]] as an rvalue; every cell the algorithm reads has been
    written before ([lev_fill_reads_written]), so the default is never
    taken. *)
Definition cell (cost : Table) (i j : nat) : nat :=
  default 0 (cost !! i ≫= (fun row => row !! j)).

(** [cost[i] = new Array()] *)
Definition new_row (cost : Table) (i : nat) : Table :=
  JS.arr_set cost i [] [].

(** [cost[i][j] = v] *)
Definition set_cell (cost : Table) (i j v : nat) : Table :=
  alter (fun row => JS.arr_set row j v 0) i cost.

Definition minimum (a b c : nat) : nat :=
  let min := a in
  let min := if b <? min then b else min in
  let min := if c <? min then c else min in
  min.

(** The body of the inner loop of [levenshtein], at [i], [j]. *)
Definition lev_cell (str1 str2 : string) (i : nat) (cost : Table) (j : nat) : Table :=
  let x := JS.charAt str1 (i - 1) in
  let y := JS.charAt str2 (j - 1) in
  if String.eqb x y
  then set_cell cost i j (cell cost (i - 1) (j - 1))
  else set_cell cost i j
         (1 + minimum (cell cost (i - 1) (j - 1)) (cell cost i (j - 1))
                (cell cost (i - 1) j)).

(** The three loops of [levenshtein] that create the rows and fill row 0
    and column 0. *)
Definition lev_init (n m : nat) : Table :=
  let cost := fold_left new_row (seq 0 (S n)) [] in
  let cost := fold_left (fun cost i => set_cell cost i 0 i) (seq 0 (S n)) cost in
  fold_left (fun cost j => set_cell cost 0 j j) (seq 0 (S m)) cost.

(** The nested loops of [levenshtein] that fill the table. *)
Definition lev_fill (str1 str2 : string) (n m : nat) (cost : Table) : Table :=
  fold_left
    (fun cost i => fold_left (lev_cell str1 str2 i) (seq 1 m) cost)
    (seq 1 n) cost.

(** [levenshtein(word1, word2)]; [None] is the bare [return;].  As in the
    source, [m] is the length of [word1]. *)
Definition levenshtein (word1 word2 : string) : option nat :=
  let str1 := word1 in
  let str2 := word2 in
  let n := JS.length str1 in
  let m := JS.length word1 in
  if n =? 0 then None
  else if m =? 0 then None
  else
    let cost := lev_init n m in
    let cost := lev_fill str1 str2 n m cost in
    Some (cell cost n m).

(** [filter(fn, source)]: keeps the words for which [fn] returns a truthy
    value.  The callback used by the engine returns the word itself or
    [undefined] ([None]). *)
Definition filter (fn : string -> option string) (source : list string) : list string :=
  List.filter
    (fun word => match fn word with Some v => JS.truthy v | None => false end)
    source.

(** One iteration of the [for] loop of [sortResults], at index [i]:
    [results[i+1]] is [undefined], hence falsy, past the end. *)
Definition sort_step (query : string) (st : list string * bool) (i : nat)
  : list string * bool :=
  let '(results, swapped) := st in
  match results !! i, results !! (i + 1) with
  | Some a, Some b =>
      if JS.truthy a && JS.truthy b
         && dist_gt (levenshtein query a) (levenshtein query b)
      then (<[i + 1 := a]> (<[i := b]> results), true)
      else st
  | _, _ => st
  end.

(** One run of the [for] loop, started with [swapped = false]. *)
Definition sort_pass (query : string) (results : list string) : list string * bool :=
  fold_left (sort_step query) (seq 0 (List.length results)) (results, false).

(** The [do ... while (swapped)] loop, with a bound on the number of
    passes; [sortResults_exits] below shows the bound is never reached. *)
Fixpoint sort_loop (fuel : nat) (query : string) (results : list string) : list string :=
  match fuel with
  | O => results
  | S fuel' =>
      let '(results', swapped) := sort_pass query results in
      if swapped then sort_loop fuel' query results' else results'
  end.

(** [sortResults(results, query)] *)
Definition sortResults (results : list string) (query : string) : list string :=
  sort_loop (S (List.length results * List.length results)) query results.

(** [getSimilarWords(input, source, limit, threshold)] for a falsy [limit]:
    the engine's only call passes [null], so the matches are returned
    whole. *)
Definition getSimilarWords (input : string) (source : list string) (threshold : Z)
  : list string :=
  let matches :=
    filter
      (fun sourceWord =>
         let levDist := levenshtein input sourceWord in
         if dist_ge0 levDist && dist_le_num levDist threshold
         then Some sourceWord else None)
      source in
  sortResults matches input.

(** [createUniqueArray(arr)]: keeps an item where it first occurs. *)
Definition createUniqueArray (arr : list string) : list string :=
  map snd
    (List.filter
       (fun '(pos, item) => (JS.arr_indexOf arr item =? Z.of_nat pos)%Z)
       (imap (fun pos item => (pos, item)) arr)).

Inductive DataType : Type := TArray | TObject.

(** [getDataType(source)]; [None] is [null]. *)
Definition getDataType (source : Source) : option DataType :=
  match source with
  | SArray _ => Some TArray
  | SObject _ => Some TObject
  | SOther => None
  end.

Definition stopWords : list string :=
  ["the"; "a"; "to"; "on"; "in"; "is"; "and"].

Definition is_stop_word (w : string) : bool :=
  existsb (String.eqb (JS.toLowerCase w)) stopWords.

(** [removeStopWords(query)]: stop words are overwritten with [undefined]
    and the defined words are joined again. *)
Definition removeStopWords (query : string) : string :=
  let words := JS.split query " " in
  let words := map (fun w => if is_stop_word w then None else Some w) words in
  let newQuery := omap id words in
  JS.join " " newQuery.

(** ** Public methods *)

(** [Haystack.prototype.tokenize(input, delimiter)] *)
Definition tokenize (input delimiter : string) : list string :=
  JS.split input delimiter.

(** The state of [search] after the query has been prepared: the local
    variables [query], [tokens] ([None] while still [undefined]) and
    [source], and the caller's own source value as the call has left it. *)
Record Prepared : Type := mkPrepared {
  p_query : string;
  p_tokens : option (list string);
  p_source : Source;
  p_caller : Source
}.

(** [source.map(function(e){ return e.toLowerCase(); })]: a new array. *)
Definition lower_array (a : list string) : list string :=
  map JS.toLowerCase a.

(** [for(key in source){ source[key] = source[key].toLowerCase(); }]:
    every value of the object is overwritten in place. *)
Definition lower_object (kv : list (string * string)) : list (string * string) :=
  map (fun '(key, value) => (key, JS.toLowerCase value)) kv.

(** "Prepare query", up to the case handling.  With [caseSensitive] off,
    an array source is replaced by a lower-cased copy in the local variable
    only, an object source is lower-cased in place, which the caller sees,
    and for any other source neither branch runs: [tokens] stays
    [undefined]. *)
Definition prepare (o : Options) (query : string) (source : Source) : Prepared :=
  let query := if ignoreStopWords o then removeStopWords query else query in
  let query :=
    match exclusions o with
    | Some remove => remove query
    | None => query
    end in
  if caseSensitive o then
    let query := JS.trim query in
    mkPrepared query (Some (tokenize query " ")) source source
  else
    match source with
    | SArray a =>
        let query := JS.toLowerCase (JS.trim query) in
        mkPrepared query (Some (tokenize query " ")) (SArray (lower_array a)) source
    | SObject kv =>
        let query := JS.toLowerCase (JS.trim query) in
        mkPrepared query (Some (tokenize query " "))
          (SObject (lower_object kv)) (SObject (lower_object kv))
    | SOther => mkPrepared query None source source
    end.

(** One iteration of the stemming loop, on [tokens] and the rebuilt query. *)
Definition stem_step (st : list string * string) (i : nat) : list string * string :=
  let '(tokens, query) := st in
  match tokens !! i with
  | Some token =>
      let lastChar := JS.lastChar token in
      let token := if String.eqb lastChar "s" then JS.dropLast token else token in
      let tokens := <[i := token]> tokens in
      if i <? List.length tokens - 1
      then (tokens, query +:+ (token +:+ " "))
      else (tokens, query +:+ token)
  | None => st
  end.

(** The stemming block: reading [tokens.length] of an [undefined] [tokens]
    throws a [TypeError]. *)
Definition stem (tokens : option (list string)) : Res (option (list string) * string) :=
  match tokens with
  | None => Thrown
  | Some ts =>
      let '(ts', query) := fold_left stem_step (seq 0 (List.length ts)) (ts, "") in
      Ok (Some ts', query)
  end.

(** The inner loop over the tokens: every token occurs in [value]. *)
Definition allFound (tokens : list string) (value : string) : bool :=
  forallb (fun token => negb (JS.indexOf value token =? -1)%Z) tokens.

(** The three tiers on an array source, in the order they push. *)
Definition arrayTiers (o : Options) (query : string) (tokens source : list string)
  : list string :=
  let results := List.filter (fun e => negb (JS.indexOf e query =? -1)%Z) source in
  let results := results ++ List.filter (allFound tokens) source in
  if (0 <? flexibility o)%Z
  then results ++ getSimilarWords query source (flexibility o)
  else results.

(** The three tiers on one value of an object source. *)
Definition objectTiers (o : Options) (query : string) (tokens : list string)
    (value : string) : list string :=
  (if negb (JS.indexOf value query =? -1)%Z then [value] else [])
  ++ (if allFound tokens value then [value] else [])
  ++ (if (0 <? flexibility o)%Z
      then if dist_le_num
                (levenshtein (JS.toLowerCase query) (JS.toLowerCase value))
                (flexibility o)
           then [value] else []
      else []).

(** [tokens.length] inside a loop body. *)
Definition tokens_read (tokens : option (list string)) : Res (list string) :=
  match tokens with
  | Some ts => Ok ts
  | None => Thrown
  end.

(** The "Search" block: the raw match list [results].  [tokens] is read
    only inside the loops, once per candidate. *)
Definition runTiers (o : Options) (query : string) (tokens : option (list string))
    (source : Source) : Res (list string) :=
  match source with
  | SArray [] => Ok []
  | SArray a =>
      try ts <- tokens_read tokens in Ok (arrayTiers o query ts a)
  | SObject [] => Ok []
  | SObject kv =>
      try ts <- tokens_read tokens in
      Ok (flat_map (fun '(_, value) => objectTiers o query ts value) kv)
  | SOther => Ok []
  end.

(** "Sort and return": [results == ""] compares [results.join(",")] with
    the empty string. *)
Definition finish (results : list string) (query : string) (limit : Z) : Completion :=
  if String.eqb (JS.join "," results) ""
  then Null
  else Return (JS.slice0 (sortResults (createUniqueArray results) query) limit).

(** The raw match list of a call, with the final query: "Prepare query",
    stemming and the "Search" block. *)
Definition matching (o : Options) (query : string) (source : Source)
  : Res (string * list string) :=
  let p := prepare o query source in
  try st <- (if stemming o then stem (p_tokens p)
             else Ok (p_tokens p, p_query p)) in
  let '(tokens, query) := st in
  try results <- runTiers o query tokens (p_source p) in
  Ok (query, results).

(** [Haystack.prototype.search(query, source, limit)]: how the call
    completes, and the caller's source value after it.  [limit] is the
    parameter after defaulting (1 when the caller leaves it out). *)
Definition search (o : Options) (query : string) (source : Source) (limit : Z)
  : Completion * Source :=
  if negb (String.eqb query "") then
    (match matching o query source with
     | Ok (query', results) => finish results query' limit
     | Thrown => TypeError
     end,
     p_caller (prepare o query source))
  else (Null, source).

(** ** Vocabulary of the properties *)

(** One single-character insertion, deletion or substitution. *)
Inductive edit : string -> string -> Prop :=
  | edit_insert (l : string) (c : ascii) (r : string) :
      edit (l +:+ r) (l +:+ String c r)
  | edit_delete (l : string) (c : ascii) (r : string) :
      edit (l +:+ String c r) (l +:+ r)
  | edit_subst (l : string) (c d : ascii) (r : string) :
      edit (l +:+ String c r) (l +:+ String d r).

(** [edits k a b]: [k] successive edits transform [a] into [b]. *)
Inductive edits : nat -> string -> string -> Prop :=
  | edits_O (a : string) : edits 0 a a
  | edits_S (k : nat) (a b c : string) :
      edit a b -> edits k b c -> edits (S k) a c.

(** [d] is the minimum number of edits that transform [a] into [b]. *)
Definition min_edits (d : nat) (a b : string) : Prop :=
  edits d a b /\ forall k, edits k a b -> d <= k.

(** The candidate values of a source. *)
Definition source_values (source : Source) : list string :=
  match source with
  | SArray a => a
  | SObject kv => map snd kv
  | SOther => []
  end.

(** [rs] is in ascending order of distance to [query], distances being
    compared as JavaScript compares them. *)
Definition ranked (query : string) (rs : list string) : Prop :=
  forall i j r1 r2,
    i < j -> rs !! i = Some r1 -> rs !! j = Some r2 ->
    dist_le (levenshtein query r1) (levenshtein query r2) = true.

(** [cost[i][j]] has been written. *)
Definition written (cost : Table) (i j : nat) : bool :=
  match cost !! i with
  | Some row => j <? length row
  | None => false
  end.

(** The inner loop body of [levenshtein] with a flag that stays true as
    long as the three cells it may read have been written. *)
Definition lev_cell_audit (str1 str2 : string) (i : nat) (st : Table * bool) (j : nat)
  : Table * bool :=
  let '(cost, ok) := st in
  (lev_cell str1 str2 i cost j,
   ok && written cost (i - 1) (j - 1) && written cost i (j - 1)
   && written cost (i - 1) j).

Definition lev_fill_audit (str1 str2 : string) (n m : nat) (cost : Table)
  : Table * bool :=
  fold_left
    (fun st i => fold_left (lev_cell_audit str1 str2 i) (seq 1 m) st)
    (seq 1 n) (cost, true).

(** The length of row [r] of the table. *)
Definition row_len (cost : Table) (r : nat) : nat :=
  length (default [] (cost !! r)).

(** The table has [rows] rows, of the lengths given by [len]. *)
Definition shaped (cost : Table) (rows : nat) (len : nat -> nat) : Prop :=
  length cost = rows /\ forall r, r < rows -> row_len cost r = len r.

(** The shape of the table when the nested loops reach the cell (i, j):
    the rows above [i] are full, row [i] has its first [j] cells, the rows
    below still have one. *)
Definition fill_len (m i j : nat) (r : nat) : nat :=
  if r <? i then S m else if r =? i then j else 1.

(** The sort key of a result as a number; [undefined] never takes part in
    a swap, so any number does for it. *)
Definition sort_key (query result : string) : nat :=
  default 0 (levenshtein query result).

(** The number of pairs of a list of keys that are out of order: the
    measure that every swap of [sortResults] decreases. *)
Fixpoint inversions (ks : list nat) : nat :=
  match ks with
  | [] => 0
  | k :: t => List.length (List.filter (fun k' => k' <? k) t) + inversions t
  end.

(** The measure of an array of results: the inversions of its keys. *)
Definition disorder (query : string) (results : list string) : nat :=
  inversions (map (sort_key query) results).

(** ** Option merging *)

(** [extendDefaults(source, properties)].  [properties] is given by what
    [for (property in properties)] visits, in order: each property name
    with its value and whether [hasOwnProperty] holds of it.  The object
    [source] is updated and returned. *)
Definition extendDefaults {V} (source : gmap string V)
    (properties : list (string * V * bool)) : gmap string V :=
  fold_left
    (fun (source : gmap string V) (entry : string * V * bool) =>
       let '(property, value, own) := entry in
       if own then <[property := value]> source else source)
    properties source.

(** ** Vocabulary of the further properties *)

(** The table holds, in every cell written so far, a value that satisfies
    [P] at its row and column. *)
Definition filled (P : nat -> nat -> nat -> Prop) (cost : Table) (rows : nat)
    (len : nat -> nat) : Prop :=
  shaped cost rows len
  /\ forall r c, r < rows -> c < len r -> P r c (cell cost r c).

(** The recurrence of the edit distance table, by row and column: the
    value the table should hold at (i, j) for the words [s1] and [s2]. *)
Fixpoint lev_at (s1 s2 : string) (i j : nat) {struct i} : nat :=
  match i with
  | O => j
  | S i' =>
      (fix row (j : nat) : nat :=
         match j with
         | O => S i'
         | S j' =>
             if String.eqb (JS.charAt s1 i') (JS.charAt s2 j')
             then lev_at s1 s2 i' j'
             else 1 + minimum (lev_at s1 s2 i' j') (row j') (lev_at s1 s2 i' (S j'))
         end) j
  end.

(** A candidate value as the tiers see it: lower-cased unless the engine
    is case sensitive. *)
Definition folded (o : Options) (value : string) : string :=
  if caseSensitive o then value else JS.toLowerCase value.

(** What the stemming loop does to one token: a trailing "s" is cut off. *)
Definition stem_word (token : string) : string :=
  if String.eqb (JS.lastChar token) "s" then JS.dropLast token else token.

(** The string contains a space character. *)
Fixpoint has_space (s : string) : bool :=
  match s with
  | EmptyString => false
  | String c s' => Ascii.eqb c " " || has_space s'
  end.

(** ** Checks of the embedding on concrete inputs *)

Example charAt_in : JS.charAt "abc" 1 = "b".
Proof. reflexivity. Qed.
Example charAt_out : JS.charAt "abc" 3 = "".
Proof. reflexivity. Qed.
Example indexOf_found : JS.indexOf "apple pie" "pie" = 6%Z.
Proof. reflexivity. Qed.
Example indexOf_absent : JS.indexOf "apple pie" "pea" = (-1)%Z.
Proof. reflexivity. Qed.
Example indexOf_empty : JS.indexOf "" "" = 0%Z /\ JS.indexOf "ab" "" = 0%Z.
Proof. split; reflexivity. Qed.
Example toLowerCase_ex : JS.toLowerCase "Apple Pie" = "apple pie".
Proof. reflexivity. Qed.
Example trim_ex : JS.trim "  a b  " = "a b" /\ JS.trim "   " = "".
Proof. split; reflexivity. Qed.
Example split_ex :
  JS.split "a  b" " " = ["a"; ""; "b"] /\ JS.split "" " " = [""]
  /\ JS.split "a,b,c" "," = ["a"; "b"; "c"].
Proof. repeat split; reflexivity. Qed.
Example join_ex : JS.join " " ["a"; "b"; "c"] = "a b c" /\ JS.join "," [""] = "".
Proof. split; reflexivity. Qed.
Example lastChar_ex : JS.lastChar "cats" = "s" /\ JS.lastChar "" = "".
Proof. split; reflexivity. Qed.
Example dropLast_ex : JS.dropLast "cats" = "cat".
Proof. reflexivity. Qed.
Example slice0_ex :
  JS.slice0 [1; 2; 3] 2 = [1; 2] /\ JS.slice0 [1; 2; 3] (-1) = [1; 2]
  /\ JS.slice0 [1; 2; 3] 7 = [1; 2; 3] /\ JS.slice0 [1; 2; 3] (-5) = [].
Proof. repeat split; reflexivity. Qed.
Example arr_indexOf_ex :
  JS.arr_indexOf ["a"; "b"; "a"] "b" = 1%Z /\ JS.arr_indexOf ["a"] "c" = (-1)%Z.
Proof. split; reflexivity. Qed.
Example levenshtein_kitten : levenshtein "kitten" "sitten" = Some 1.
Proof. reflexivity. Qed.
Example levenshtein_same_length : levenshtein "flaw" "lawn" = Some 2.
Proof. reflexivity. Qed.
Example levenshtein_self : levenshtein "apple" "apple" = Some 0.
Proof. reflexivity. Qed.
Example sortResults_ex :
  sortResults ["abc"; "abd"; "xyz"; "abx"] "abd" = ["abd"; "abc"; "abx"; "xyz"].
Proof. vm_compute. reflexivity. Qed.
Example createUniqueArray_ex :
  createUniqueArray ["a"; "b"; "a"; "c"; "b"] = ["a"; "b"; "c"].
Proof. reflexivity. Qed.
Example removeStopWords_ex : removeStopWords "The cat is on a mat" = "cat mat".
Proof. reflexivity. Qed.
Example search_permuted :
  search defaults "pie apple"
    (SArray ["apple pie"; "banana split"; "cherry tart"]) 1
  = (Return ["apple pie"],
     SArray ["apple pie"; "banana split"; "cherry tart"]).
Proof. vm_compute. reflexivity. Qed.
Example search_stemming :
  fst (search (mkOptions false 0 true None false) "Cats Dogs"
         (SArray ["dog and cat"; "bird"]) 5)
  = Return ["dog and cat"].
Proof. vm_compute. reflexivity. Qed.
Example search_no_match :
  fst (search defaults "zzzzzz" (SArray ["apple pie"]) 1) = Null.
Proof. vm_compute. reflexivity. Qed.

(** ** The table of the edit distance calculator *)

Lemma fold_left_seq_inv {A} (P : nat -> A -> Prop) (f : A -> nat -> A)
    (len start : nat) (x : A) :
  P start x ->
  (forall k y, start <= k < start + len -> P k y -> P (S k) (f y k)) ->
  P (start + len) (fold_left f (seq start len) x).
Proof.
  revert start x. induction len as [|len IH]; intros start x H0 Hstep.
  - rewrite Nat.add_0_r. exact H0.
  - cbn [seq fold_left]. replace (start + S len) with (S start + len) by lia.
    apply IH.
    + apply Hstep; [lia|exact H0].
    + intros k y Hk. apply Hstep. lia.
Qed.

Lemma length_arr_set {A} (a : list A) (j : nat) (v hole : A) :
  length (JS.arr_set a j v hole) = Nat.max (length a) (S j).
Proof.
  unfold JS.arr_set. destruct (Nat.ltb_spec j (length a)).
  - rewrite length_insert. lia.
  - rewrite !length_app, length_replicate. simpl. lia.
Qed.

Lemma length_set_cell (cost : Table) (i j v : nat) :
  length (set_cell cost i j v) = length cost.
Proof. apply length_alter. Qed.

Lemma row_len_set_cell (cost : Table) (i j v r : nat) :
  i < length cost ->
  row_len (set_cell cost i j v) r
  = if r =? i then Nat.max (row_len cost i) (S j) else row_len cost r.
Proof.
  intros Hi. unfold row_len, set_cell.
  destruct (Nat.eqb_spec r i) as [->|Hne].
  - rewrite list_lookup_alter_eq.
    destruct (lookup_lt_is_Some_2 cost i Hi) as [row ->]. cbn.
    apply length_arr_set.
  - rewrite list_lookup_alter_ne by congruence. reflexivity.
Qed.

Lemma shaped_set_cell (cost : Table) (rows : nat) (len len' : nat -> nat) (i j v : nat) :
  shaped cost rows len -> i < rows ->
  (forall r, r < rows ->
     len' r = if r =? i then Nat.max (len i) (S j) else len r) ->
  shaped (set_cell cost i j v) rows len'.
Proof.
  intros [Hl Hr] Hi Hlen. split; [rewrite length_set_cell; exact Hl|].
  intros r Hlt. rewrite row_len_set_cell by lia. rewrite (Hlen r Hlt).
  destruct (r =? i); rewrite Hr by lia; reflexivity.
Qed.

Lemma shaped_new_row (cost : Table) (rows : nat) :
  shaped cost rows (fun _ => 0) -> shaped (new_row cost rows) (S rows) (fun _ => 0).
Proof.
  intros [Hl Hr]. unfold new_row, JS.arr_set. rewrite Hl, Nat.ltb_irrefl, Nat.sub_diag.
  cbn [replicate app]. split; [rewrite length_app; simpl; lia|].
  intros r Hlt. unfold row_len.
  destruct (Nat.eq_dec r rows) as [->|Hne].
  - rewrite lookup_app_r by lia. rewrite Hl, Nat.sub_diag. reflexivity.
  - rewrite lookup_app_l by lia. apply Hr. lia.
Qed.

(** After the three initial loops the table has n+1 rows: row 0 with m+1
    cells, every other row with one cell. *)
Lemma lev_init_shaped (n m : nat) :
  shaped (lev_init n m) (S n) (fun r => if r =? 0 then S m else 1).
Proof.
  unfold lev_init.
  assert (H1 : shaped (fold_left new_row (seq 0 (S n)) []) (S n) (fun _ => 0)).
  { apply (fold_left_seq_inv (fun k c => shaped c k (fun _ => 0)) new_row (S n) 0).
    - split; [reflexivity|]. intros r Hr; lia.
    - intros k y _ Hy. apply shaped_new_row, Hy. }
  set (c1 := fold_left new_row (seq 0 (S n)) []) in *.
  assert (H2 : shaped (fold_left (fun cost i => set_cell cost i 0 i) (seq 0 (S n)) c1)
                 (S n) (fun _ => 1)).
  { pose proof (fold_left_seq_inv
      (fun k c => shaped c (S n) (fun r => if r <? k then 1 else 0))
      (fun cost i => set_cell cost i 0 i) (S n) 0 c1) as H.
    cbn beta in H. destruct H as [Hl Hr].
    - destruct H1 as [Hl Hr]. split; [exact Hl|]. intros r Hlt. rewrite Hr by lia.
      reflexivity.
    - intros k y Hk Hy. eapply shaped_set_cell; [exact Hy|lia|].
      intros r Hlt. cbn beta.
      destruct (Nat.eqb_spec r k), (Nat.ltb_spec r (S k)), (Nat.ltb_spec r k),
        (Nat.ltb_spec k k); lia.
    - split; [exact Hl|]. intros r Hlt. rewrite Hr by lia.
      destruct (Nat.ltb_spec r (0 + S n)); [reflexivity|lia]. }
  set (c2 := fold_left _ (seq 0 (S n)) c1) in *.
  pose proof (fold_left_seq_inv
    (fun k c => shaped c (S n) (fun r => if r =? 0 then Nat.max 1 k else 1))
    (fun cost j => set_cell cost 0 j j) (S m) 0 c2) as H.
  cbn beta in H. destruct H as [Hl Hr].
  - destruct H2 as [Hl Hr]. split; [exact Hl|]. intros r Hlt. rewrite Hr by lia.
    destruct (r =? 0); reflexivity.
  - intros k y Hk Hy. eapply shaped_set_cell; [exact Hy|lia|].
    intros r Hlt. cbn beta. destruct (Nat.eqb_spec r 0); simpl; lia.
  - split; [exact Hl|]. intros r Hlt. rewrite Hr by lia.
    destruct (r =? 0); lia.
Qed.

Lemma shaped_ext (cost : Table) (rows : nat) (len len' : nat -> nat) :
  shaped cost rows len -> (forall r, r < rows -> len r = len' r) ->
  shaped cost rows len'.
Proof.
  intros [Hl Hr] He. split; [exact Hl|].
  intros r Hlt. rewrite Hr, He by lia. reflexivity.
Qed.

Lemma shaped_written (cost : Table) (rows : nat) (len : nat -> nat) (i j : nat) :
  shaped cost rows len -> i < rows -> j < len i -> written cost i j = true.
Proof.
  intros [Hl Hr] Hi Hj. specialize (Hr i Hi). unfold written, row_len in *.
  destruct (lookup_lt_is_Some_2 cost i ltac:(lia)) as [row E].
  rewrite E in *. cbn in Hr. apply Nat.ltb_lt. lia.
Qed.

Lemma lev_cell_shaped (str1 str2 : string) (n m i j : nat) (cost : Table) :
  1 <= i <= n ->
  shaped cost (S n) (fill_len m i j) ->
  shaped (lev_cell str1 str2 i cost j) (S n) (fill_len m i (S j)).
Proof.
  intros Hi Hs. unfold lev_cell.
  destruct (String.eqb _ _);
    (eapply shaped_set_cell; [exact Hs|lia|]);
    intros r Hr; unfold fill_len;
    destruct (Nat.eqb_spec r i), (Nat.ltb_spec r i), (Nat.ltb_spec i i),
      (Nat.eqb_spec i i); lia.
Qed.

Lemma lev_cell_audit_fst (str1 str2 : string) (i : nat) (js : list nat) (st : Table * bool) :
  fst (fold_left (lev_cell_audit str1 str2 i) js st)
  = fold_left (lev_cell str1 str2 i) js (fst st).
Proof.
  revert st. induction js as [|j js IH]; intros [cost ok]; cbn [fold_left]; [reflexivity|].
  rewrite IH. reflexivity.
Qed.

Lemma lev_rows_audit_fst (str1 str2 : string) (m : nat) (rows : list nat)
    (st : Table * bool) :
  fst (fold_left
         (fun st i => fold_left (lev_cell_audit str1 str2 i) (seq 1 m) st)
         rows st)
  = fold_left
      (fun cost i => fold_left (lev_cell str1 str2 i) (seq 1 m) cost)
      rows (fst st).
Proof.
  revert st. induction rows as [|i rows IH]; intros st; cbn [fold_left]; [reflexivity|].
  rewrite IH, lev_cell_audit_fst. reflexivity.
Qed.

Lemma lev_fill_audit_fst (str1 str2 : string) (n m : nat) (cost : Table) :
  fst (lev_fill_audit str1 str2 n m cost) = lev_fill str1 str2 n m cost.
Proof. apply lev_rows_audit_fst. Qed.

(** One run of the inner loop, on row [i]: the flag stays true and the row
    gets its m+1 cells. *)
Lemma lev_row_audit (str1 str2 : string) (n m i : nat) (st : Table * bool) :
  1 <= i <= n ->
  snd st = true -> shaped (fst st) (S n) (fill_len m i 1) ->
  let st' := fold_left (lev_cell_audit str1 str2 i) (seq 1 m) st in
  snd st' = true /\ shaped (fst st') (S n) (fill_len m i (S m)).
Proof.
  intros Hi Hok Hs.
  apply (fold_left_seq_inv
           (fun j st => snd st = true /\ shaped (fst st) (S n) (fill_len m i j))
           (lev_cell_audit str1 str2 i) m 1 st); [tauto|].
  intros j [cost ok] Hj [Hok' Hs']. cbn [fst snd] in *. subst ok.
  unfold lev_cell_audit. cbn [fst snd andb].
  split; [|eapply lev_cell_shaped; eassumption].
  rewrite !(shaped_written cost (S n) (fill_len m i j)); try exact Hs'; try lia;
    try reflexivity; unfold fill_len;
    repeat match goal with
      | |- context [?a <? ?b] => destruct (Nat.ltb_spec a b)
      | |- context [?a =? ?b] => destruct (Nat.eqb_spec a b)
      end; lia.
Qed.

(** Every cell that [levenshtein] reads, in the loops and at its return,
    has been written before. *)
Theorem lev_fill_reads_written (str1 str2 : string) (n m : nat) :
  lev_fill_audit str1 str2 n m (lev_init n m)
  = (lev_fill str1 str2 n m (lev_init n m), true)
  /\ written (lev_fill str1 str2 n m (lev_init n m)) n m = true.
Proof.
  assert (H : snd (lev_fill_audit str1 str2 n m (lev_init n m)) = true
              /\ shaped (fst (lev_fill_audit str1 str2 n m (lev_init n m)))
                   (S n) (fill_len m (S n) 1)).
  { unfold lev_fill_audit.
    apply (fold_left_seq_inv
             (fun i st => snd st = true /\ shaped (fst st) (S n) (fill_len m i 1))
             (fun st i => fold_left (lev_cell_audit str1 str2 i) (seq 1 m) st)
             n 1 (lev_init n m, true)).
    - split; [reflexivity|]. cbn [fst].
      eapply shaped_ext; [apply lev_init_shaped|].
      intros r Hr. unfold fill_len.
      destruct (Nat.eqb_spec r 0), (Nat.ltb_spec r 1), (Nat.eqb_spec r 1); lia.
    - intros i st Hi [Hok Hs].
      destruct (lev_row_audit str1 str2 n m i st ltac:(lia) Hok Hs) as [Hok' Hs'].
      split; [exact Hok'|].
      eapply shaped_ext; [exact Hs'|].
      intros r Hr. unfold fill_len.
      destruct (Nat.ltb_spec r i), (Nat.eqb_spec r i), (Nat.ltb_spec r (S i)),
        (Nat.eqb_spec r (S i)); lia. }
  destruct H as [Hok Hs].
  rewrite <- lev_fill_audit_fst.
  split.
  - destruct (lev_fill_audit str1 str2 n m (lev_init n m)) as [c b].
    cbn [fst snd] in *. subst b. reflexivity.
  - apply (shaped_written _ (S n) (fill_len m (S n) 1)); [exact Hs|lia|].
    unfold fill_len. destruct (Nat.ltb_spec n (S n)); lia.
Qed.

(** ** The edit distance calculator *)

(** [levenshtein] gives up on an empty first word only: the second test
    reads the length of the first word again. *)
Lemma levenshtein_undefined_iff (word1 word2 : string) :
  levenshtein word1 word2 = None <-> word1 = "".
Proof.
  unfold levenshtein, JS.length.
  destruct word1 as [|c w]; simpl; [tauto|].
  split; discriminate.
Qed.

Lemma fold_left_ext_in {A B} (f g : A -> B -> A) (l : list B) (x : A) :
  (forall y i, In i l -> f y i = g y i) ->
  fold_left f l x = fold_left g l x.
Proof.
  revert x. induction l as [|i l IH]; intros x H; cbn [fold_left]; [reflexivity|].
  rewrite (H x i) by (left; reflexivity).
  apply IH. intros y k Hk. apply H. right; exact Hk.
Qed.

(** Of the second word, [levenshtein] reads only the positions below the
    length of the first: two second words that agree there get the same
    distance. *)
Lemma levenshtein_reads_prefix (word1 word2 word2' : string) :
  (forall k, k < JS.length word1 -> JS.charAt word2 k = JS.charAt word2' k) ->
  levenshtein word1 word2 = levenshtein word1 word2'.
Proof.
  intros H. unfold levenshtein.
  destruct (JS.length word1 =? 0); [reflexivity|].
  do 2 f_equal. apply fold_left_ext_in. intros cost i _.
  apply fold_left_ext_in. intros cost' j Hj.
  apply in_seq in Hj. unfold lev_cell.
  rewrite (H (j - 1)) by lia. reflexivity.
Qed.

Lemma edits_O_inv (a b : string) : edits 0 a b -> a = b.
Proof. inversion 1; reflexivity. Qed.

(** C1, at the input ("a", "ab"): the code answers 0 although the minimum
    number of single-character edits that turn "a" into "ab" is 1; the
    second word is only read up to the length of the first. *)
Theorem levenshtein_not_minimal :
  levenshtein "a" "ab" = Some 0 /\ min_edits 1 "a" "ab".
Proof.
  split; [reflexivity|].
  split.
  - apply edits_S with (b := "ab"); [|constructor].
    exact (edit_insert "a" "b" "").
  - intros [|k] H; [|lia].
    apply edits_O_inv in H. discriminate.
Qed.

(** C2, at the inputs ("a", "ab") and ("ab", "a"): the two orders of the
    arguments give different distances, 0 and 1. *)
Theorem levenshtein_not_symmetric :
  levenshtein "a" "ab" = Some 0 /\ levenshtein "ab" "a" = Some 1
  /\ levenshtein "a" "ab" <> levenshtein "ab" "a".
Proof. repeat split; [reflexivity..|discriminate]. Qed.

(** C7, at the input ("a", ""): with an empty second word and a non-empty
    first one the code returns the number 1, not undefined. *)
Theorem levenshtein_empty_second :
  levenshtein "a" "" = Some 1 /\ levenshtein "" "a" = None.
Proof. split; reflexivity. Qed.

(** ** The exchange sort *)

Section swap.
Context {A : Type}.
Implicit Types l t d : list A.

Lemma swap_middle t a b d :
  <[length t + 1 := a]> (<[length t := b]> (t ++ a :: b :: d))
  = t ++ b :: a :: d.
Proof. induction t as [|x t IH]; simpl; [reflexivity|]. f_equal. exact IH. Qed.

Lemma swap_adjacent l i a b :
  l !! i = Some a -> l !! (i + 1) = Some b ->
  exists t d,
    l = t ++ a :: b :: d
    /\ <[i + 1 := a]> (<[i := b]> l) = t ++ b :: a :: d.
Proof.
  intros Ha Hb.
  assert (Hi : length (take i l) = i).
  { apply length_take_le. apply lookup_lt_Some in Ha. lia. }
  assert (Hl : l = take i l ++ a :: b :: drop (S (S i)) l).
  { replace (i + 1) with (S i) in Hb by lia.
    rewrite <- (drop_S l b (S i)) by exact Hb.
    symmetry. apply take_drop_middle. exact Ha. }
  remember (take i l) as t eqn:Et.
  remember (drop (S (S i)) l) as d eqn:Ed.
  exists t, d. split; [exact Hl|].
  clear Et Ed Ha Hb. subst l i. apply swap_middle.
Qed.
End swap.

Lemma count_below_swap (k : nat) (t : list nat) (a b : nat) (d : list nat) :
  length (List.filter (fun k' => k' <? k) (t ++ a :: b :: d))
  = length (List.filter (fun k' => k' <? k) (t ++ b :: a :: d)).
Proof.
  rewrite !List.filter_app. simpl.
  destruct (a <? k), (b <? k); rewrite !length_app; simpl; lia.
Qed.

Lemma inversions_swap (t : list nat) (a b : nat) (d : list nat) :
  b < a ->
  inversions (t ++ a :: b :: d) = S (inversions (t ++ b :: a :: d)).
Proof.
  intros Hba. induction t as [|x t IH]; simpl.
  - destruct (Nat.ltb_spec b a); [|lia].
    destruct (Nat.ltb_spec a b); [lia|]. simpl. lia.
  - rewrite IH, (count_below_swap x t a b d). lia.
Qed.

Lemma inversions_bound (ks : list nat) :
  inversions ks <= length ks * length ks.
Proof.
  induction ks as [|k t IH]; simpl; [lia|].
  pose proof (List.filter_length_le (fun k' => k' <? k) t). nia.
Qed.

Lemma dist_gt_sort_key (query a b : string) :
  dist_gt (levenshtein query a) (levenshtein query b) = true ->
  sort_key query b < sort_key query a.
Proof.
  unfold sort_key, dist_gt.
  destruct (levenshtein query a), (levenshtein query b); simpl; try discriminate.
  intros H. apply Nat.ltb_lt in H. exact H.
Qed.

(** An iteration either changes nothing or swaps two neighbours whose keys
    are in strictly descending order. *)
Lemma sort_step_cases (query : string) (results : list string) (swapped : bool) (i : nat) :
  sort_step query (results, swapped) i = (results, swapped)
  \/ exists t a b d,
       results = t ++ a :: b :: d
       /\ sort_step query (results, swapped) i = (t ++ b :: a :: d, true)
       /\ sort_key query b < sort_key query a.
Proof.
  unfold sort_step.
  destruct (results !! i) as [a|] eqn:Ha; [|left; reflexivity].
  destruct (results !! (i + 1)) as [b|] eqn:Hb; [|left; reflexivity].
  destruct (JS.truthy a && JS.truthy b
            && dist_gt (levenshtein query a) (levenshtein query b)) eqn:Hc;
    [|left; reflexivity].
  right. destruct (swap_adjacent results i a b Ha Hb) as (t & d & Hl & Hs).
  exists t, a, b, d. rewrite Hs. repeat split; [exact Hl|].
  apply dist_gt_sort_key. apply andb_true_iff in Hc. tauto.
Qed.

Lemma sort_steps_cases (query : string) (idx : list nat) (results : list string) (swapped : bool) :
  fold_left (sort_step query) idx (results, swapped) = (results, swapped)
  \/ exists results',
       fold_left (sort_step query) idx (results, swapped) = (results', true)
       /\ results' ≡ₚ results
       /\ disorder query results' < disorder query results.
Proof.
  revert results swapped.
  induction idx as [|i idx IH]; intros results swapped; cbn [fold_left].
  - left; reflexivity.
  - destruct (sort_step_cases query results swapped i)
      as [->|(t & a & b & d & -> & -> & Hk)]; [apply IH|].
    right.
    assert (Hp : t ++ b :: a :: d ≡ₚ t ++ a :: b :: d).
    { apply Permutation_app_head. apply perm_swap. }
    assert (Hd : disorder query (t ++ b :: a :: d)
                 < disorder query (t ++ a :: b :: d)).
    { unfold disorder. rewrite !map_app. simpl.
      rewrite (inversions_swap _ (sort_key query a) (sort_key query b)) by exact Hk.
      lia. }
    destruct (IH (t ++ b :: a :: d) true) as [->|(r' & -> & Hp' & Hd')].
    + eexists; repeat split; [exact Hp|exact Hd].
    + eexists; repeat split; [etransitivity; eassumption|lia].
Qed.

Lemma sort_pass_cases (query : string) (results : list string) :
  sort_pass query results = (results, false)
  \/ exists results',
       sort_pass query results = (results', true)
       /\ results' ≡ₚ results
       /\ disorder query results' < disorder query results.
Proof. apply sort_steps_cases. Qed.

Lemma sort_loop_perm (fuel : nat) (query : string) (results : list string) :
  sort_loop fuel query results ≡ₚ results.
Proof.
  revert results. induction fuel as [|fuel IH]; intros results; simpl; [reflexivity|].
  destruct (sort_pass_cases query results) as [->|(r' & -> & Hp & _)]; [reflexivity|].
  rewrite IH. exact Hp.
Qed.

(** With more passes allowed than the list has pairs out of order, the
    loop stops because a pass made no swap. *)
Lemma sort_loop_exits (fuel : nat) (query : string) (results : list string) :
  disorder query results < fuel ->
  sort_pass query (sort_loop fuel query results)
  = (sort_loop fuel query results, false).
Proof.
  revert results. induction fuel as [|fuel IH]; intros results Hlt; [lia|]. simpl.
  destruct (sort_pass_cases query results) as [E|(r' & E & _ & Hd)]; rewrite E.
  - exact E.
  - apply IH. lia.
Qed.

(** Allowing more passes than that does not change the result. *)
Lemma sort_loop_more (fuel fuel' : nat) (query : string) (results : list string) :
  disorder query results < fuel -> fuel <= fuel' ->
  sort_loop fuel' query results = sort_loop fuel query results.
Proof.
  revert fuel' results. induction fuel as [|fuel IH]; intros fuel' results Hlt Hle; [lia|].
  destruct fuel' as [|fuel']; [lia|]. simpl.
  destruct (sort_pass_cases query results) as [E|(r' & E & _ & Hd)]; rewrite E.
  - reflexivity.
  - apply IH; lia.
Qed.

Lemma disorder_bound (query : string) (results : list string) :
  disorder query results < S (length results * length results).
Proof.
  unfold disorder. pose proof (inversions_bound (map (sort_key query) results)) as H.
  rewrite length_map in H. lia.
Qed.

(** [sortResults] returns: the loop of the source ends, after a pass
    without a swap, within the bound of the model, and any larger bound
    gives the same array. *)
Theorem sortResults_exits (results : list string) (query : string) :
  sort_pass query (sortResults results query) = (sortResults results query, false)
  /\ forall fuel, S (length results * length results) <= fuel ->
       sort_loop fuel query results = sortResults results query.
Proof.
  split.
  - apply sort_loop_exits, disorder_bound.
  - intros fuel Hle. apply sort_loop_more; [apply disorder_bound|exact Hle].
Qed.

Lemma sortResults_perm (results : list string) (query : string) :
  sortResults results query ≡ₚ results.
Proof. apply sort_loop_perm. Qed.

(** ** The search facade *)

(** C9: with the empty string as the query, search returns null, for every
    source, limit and configuration, and touches nothing. *)
Theorem search_empty_query (o : Options) (source : Source) (limit : Z) :
  search o "" source limit = (Null, source).
Proof. reflexivity. Qed.

Lemma stem_defined (ts : list string) :
  exists ts' query, stem (Some ts) = Ok (Some ts', query).
Proof.
  unfold stem.
  destruct (fold_left stem_step (seq 0 (length ts)) (ts, "")) as [ts' query].
  eauto.
Qed.

Lemma runTiers_defined (o : Options) (query : string) (ts : list string) (source : Source) :
  exists results, runTiers o query (Some ts) source = Ok results.
Proof.
  destruct source as [[|e a]|[|e kv]|]; simpl; eauto.
Qed.




(** C6, at the input ("cats", null) with stemming on: the call ends in a
    TypeError (the length of the still undefined [tokens] is read) instead
    of returning null. *)
Theorem search_throws_on_unsupported_source :
  search (mkOptions false 2 true None false) "cats" SOther 1
  = (TypeError, SOther).
Proof. reflexivity. Qed.


(** C5, at the input ("x", {a: "Apple"}) with the default options: after
    the call the caller's object holds "apple" under the key a; the value
    has been overwritten. *)
Theorem search_overwrites_object :
  snd (search defaults "x" (SObject [("a", "Apple")]) 1)
  = SObject [("a", "apple")]
  /\ SObject [("a", "apple")] <> SObject [("a", "Apple")].
Proof. split; [reflexivity|discriminate]. Qed.

(** C3, at the input ("ab", {a: "xab", b: "", c: "ab"}, 3) with the default
    options: the returned list is ["xab", "", "ab"], where "xab" at distance
    2 comes before "ab" at distance 0; the empty string between them is
    falsy, so the exchange sort never swaps across it. *)
Theorem search_not_ranked :
  search defaults "ab" (SObject [("a", "xab"); ("b", ""); ("c", "ab")]) 3
  = (Return ["xab"; ""; "ab"],
     SObject [("a", "xab"); ("b", ""); ("c", "ab")])
  /\ levenshtein "ab" "xab" = Some 2 /\ levenshtein "ab" "ab" = Some 0
  /\ ~ ranked "ab" ["xab"; ""; "ab"].
Proof.
  split; [vm_compute; reflexivity|].
  split; [reflexivity|]. split; [reflexivity|].
  intros H. specialize (H 0 2 "xab" "ab"). 
  assert (E : dist_le (levenshtein "ab" "xab") (levenshtein "ab" "ab") = false)
    by reflexivity.
  rewrite H in E; [discriminate|lia|reflexivity|reflexivity].
Qed.

(** C10: when the raw match list is exactly one empty string, search
    returns null: the array, joined with commas, equals the empty string. *)
Theorem search_sole_empty_match (o : Options) (query : string) (source : Source)
    (limit : Z) (query' : string) :
  query <> "" ->
  matching o query source = Ok (query', [""]) ->
  fst (search o query source limit) = Null.
Proof.
  intros Hq Hm. unfold search.
  destruct (String.eqb_spec query "") as [->|_]; [congruence|].
  cbn [negb fst]. rewrite Hm. reflexivity.
Qed.

Lemma search_sole_empty_match_witness :
  "ab" <> ""
  /\ matching defaults "ab" (SObject [("a", "")]) = Ok ("ab", [""])
  /\ fst (search defaults "ab" (SObject [("a", "")]) 1) = Null.
Proof.
  assert (Hq : "ab" <> "") by discriminate.
  assert (Hm : matching defaults "ab" (SObject [("a", "")]) = Ok ("ab", [""]))
    by reflexivity.
  split; [exact Hq|]. split; [exact Hm|].
  exact (search_sole_empty_match defaults "ab" (SObject [("a", "")]) 1 "ab" Hq Hm).
Defined.

(** ** The final slice *)

Lemma slice0_length {A} (a : list A) (e : Z) :
  (0 <= e)%Z -> (Z.of_nat (length (JS.slice0 a e)) <= e)%Z.
Proof.
  intros He. unfold JS.slice0.
  destruct (Z.ltb_spec e 0) as [?|_]; [lia|].
  rewrite length_take. lia.
Qed.

Lemma slice0_subset {A} (a : list A) (e : Z) (x : A) :
  x ∈ JS.slice0 a e -> x ∈ a.
Proof. unfold JS.slice0. apply (subseteq_take _ a). Qed.

Lemma finish_returns (results : list string) (query : string) (limit : Z) (rs : list string) :
  finish results query limit = Return rs ->
  rs = JS.slice0 (sortResults (createUniqueArray results) query) limit.
Proof.
  unfold finish. destruct (String.eqb _ _); [discriminate|].
  intros [= <-]. reflexivity.
Qed.

Lemma search_returns (o : Options) (query : string) (source : Source) (limit : Z)
    (rs : list string) :
  fst (search o query source limit) = Return rs ->
  exists query' results,
    matching o query source = Ok (query', results)
    /\ finish results query' limit = Return rs.
Proof.
  unfold search. destruct (negb (String.eqb query "")); cbn [fst]; [|discriminate].
  destruct (matching o query source) as [[query' results]|]; [|discriminate].
  eauto.
Qed.

(** C8, as stated, fails at the limit -1: [slice(0, -1)] drops the last of
    the two matches and keeps one entry. *)
Lemma search_negative_limit :
  fst (search defaults "a" (SArray ["a"; "ab"]) (-1)) = Return ["a"]
  /\ ~ (Z.of_nat (length ["a"]) <= -1)%Z.
Proof. split; [vm_compute; reflexivity|simpl; lia]. Qed.

(** C8, amended: for a limit that is not negative, the list returned by
    search has at most limit entries. *)
Theorem search_limit_respected (o : Options) (query : string) (source : Source)
    (limit : Z) (rs : list string) :
  (0 <= limit)%Z ->
  fst (search o query source limit) = Return rs ->
  (Z.of_nat (length rs) <= limit)%Z.
Proof.
  intros Hl Hr.
  destruct (search_returns _ _ _ _ _ Hr) as (query' & results & _ & Hf).
  rewrite (finish_returns _ _ _ _ Hf). apply slice0_length, Hl.
Qed.

Lemma search_limit_respected_witness :
  (0 <= 1)%Z
  /\ fst (search defaults "a" (SArray ["a"; "ab"]) 1) = Return ["a"]
  /\ (Z.of_nat (length ["a"]) <= 1)%Z.
Proof.
  assert (Hl : (0 <= 1)%Z) by lia.
  assert (Hr : fst (search defaults "a" (SArray ["a"; "ab"]) 1) = Return ["a"])
    by (vm_compute; reflexivity).
  split; [exact Hl|]. split; [exact Hr|].
  exact (search_limit_respected defaults "a" (SArray ["a"; "ab"]) 1 ["a"] Hl Hr).
Defined.

(** ** Where the results come from *)

Lemma createUniqueArray_subset (arr : list string) (x : string) :
  In x (createUniqueArray arr) -> In x arr.
Proof.
  unfold createUniqueArray. rewrite in_map_iff.
  intros ([pos item] & <- & H). apply filter_In in H as [H _].
  apply list_elem_of_In, elem_of_lookup_imap in H as (i & y & [= -> ->] & Hl).
  apply list_elem_of_In. eapply list_elem_of_lookup_2. exact Hl.
Qed.

Lemma sortResults_subset (results : list string) (query x : string) :
  In x (sortResults results query) -> In x results.
Proof. apply Permutation_in, sortResults_perm. Qed.

Lemma finish_subset (results : list string) (query : string) (limit : Z)
    (rs : list string) (x : string) :
  finish results query limit = Return rs -> In x rs -> In x results.
Proof.
  intros Hf Hx. rewrite (finish_returns _ _ _ _ Hf) in Hx.
  apply list_elem_of_In, slice0_subset, list_elem_of_In in Hx.
  eapply createUniqueArray_subset, sortResults_subset, Hx.
Qed.

Lemma filter_subset (fn : string -> option string) (source : list string) (x : string) :
  In x (filter fn source) -> In x source.
Proof. unfold filter. intros H. apply filter_In in H. tauto. Qed.

Lemma getSimilarWords_subset (input : string) (source : list string) (threshold : Z)
    (x : string) :
  In x (getSimilarWords input source threshold) -> In x source.
Proof.
  unfold getSimilarWords. intros H.
  eapply filter_subset, sortResults_subset, H.
Qed.

Lemma arrayTiers_subset (o : Options) (query : string) (tokens source : list string)
    (x : string) :
  In x (arrayTiers o query tokens source) -> In x source.
Proof.
  unfold arrayTiers. destruct (0 <? flexibility o)%Z; rewrite ?in_app_iff.
  - intros [[H|H]|H].
    + apply filter_In in H; tauto.
    + apply filter_In in H; tauto.
    + eapply getSimilarWords_subset, H.
  - intros [H|H]; apply filter_In in H; tauto.
Qed.

Lemma objectTiers_subset (o : Options) (query : string) (tokens : list string)
    (value x : string) :
  In x (objectTiers o query tokens value) -> x = value.
Proof.
  unfold objectTiers. rewrite !in_app_iff.
  intros [H|[H|H]];
    repeat match type of H with
      | In _ (if ?b then _ else _) => destruct b
      end;
    simpl in H; intuition congruence.
Qed.

Lemma objectTiers_all_subset (o : Options) (query : string) (tokens : list string)
    (kv : list (string * string)) (x : string) :
  In x (flat_map (fun '(_, value) => objectTiers o query tokens value) kv) ->
  In x (map snd kv).
Proof.
  intros H. apply in_flat_map in H as ([key value] & Hin & Hx).
  apply objectTiers_subset in Hx as ->.
  apply in_map_iff. exists (key, value). split; [reflexivity|exact Hin].
Qed.

(** Every raw match is a value of the source the tiers ran on. *)
Lemma runTiers_subset (o : Options) (query : string) (tokens : option (list string))
    (source : Source) (results : list string) (x : string) :
  runTiers o query tokens source = Ok results ->
  In x results -> In x (source_values source).
Proof.
  destruct source as [[|e a]|[|e kv]|]; cbn [runTiers source_values];
    try (intros [= <-] []).
  - destruct tokens as [ts|]; [|discriminate]. cbn. intros [= <-].
    apply arrayTiers_subset.
  - destruct tokens as [ts|]; [|discriminate]. cbn [tokens_read bind].
    intros [= <-]. apply (objectTiers_all_subset o query ts (e :: kv)).
Qed.

(** Every raw match is a value of the source as "Prepare query" left it. *)
Lemma matching_subset (o : Options) (query : string) (source : Source)
    (query' : string) (results : list string) (x : string) :
  matching o query source = Ok (query', results) ->
  In x results -> In x (source_values (p_source (prepare o query source))).
Proof.
  unfold matching.
  destruct (if stemming o then stem (p_tokens (prepare o query source))
            else Ok (p_tokens (prepare o query source),
                     p_query (prepare o query source)))
    as [[tokens q]|]; cbn [bind]; [|discriminate].
  destruct (runTiers o q tokens (p_source (prepare o query source)))
    as [r|] eqn:Hr; cbn [bind]; [|discriminate].
  intros [= _ <-]. eapply runTiers_subset, Hr.
Qed.

(** With case sensitivity off, the tiers run on the lower-cased values. *)
Lemma prepare_source_values (o : Options) (query : string) (source : Source) :
  caseSensitive o = false ->
  source_values (p_source (prepare o query source))
  = map JS.toLowerCase (source_values source).
Proof.
  intros Hc. unfold prepare. rewrite Hc.
  destruct source as [a|kv|]; cbn; [reflexivity| |reflexivity].
  unfold lower_object. rewrite !map_map. apply map_ext. intros [k v]. reflexivity.
Qed.

(** With case sensitivity on, they run on the source as it was passed. *)
Lemma prepare_source_sensitive (o : Options) (query : string) (source : Source) :
  caseSensitive o = true -> p_source (prepare o query source) = source.
Proof. intros Hc. unfold prepare. rewrite Hc. reflexivity. Qed.

(** C4, as stated, fails at the input ("apple", ["Apple Pie"]): the entry
    returned is "apple pie", which is not a value of the caller's source. *)
Lemma search_returns_folded_value :
  caseSensitive defaults = false
  /\ fst (search defaults "apple" (SArray ["Apple Pie"]) 1) = Return ["apple pie"]
  /\ ~ (forall r, In r ["apple pie"] -> In r (source_values (SArray ["Apple Pie"]))).
Proof.
  split; [reflexivity|]. split; [vm_compute; reflexivity|].
  intros H. destruct (H "apple pie") as [E|[]]; [left; reflexivity|discriminate E].
Qed.

(** C4, amended: with caseSensitive false, every entry of the list returned
    by search is the lower-cased form of a candidate value of the caller's
    source. *)
Theorem search_returns_lowercased (o : Options) (query : string) (source : Source)
    (limit : Z) (rs : list string) (r : string) :
  caseSensitive o = false ->
  fst (search o query source limit) = Return rs ->
  In r rs ->
  exists v, In v (source_values source) /\ r = JS.toLowerCase v.
Proof.
  intros Hc Hr Hin.
  destruct (search_returns _ _ _ _ _ Hr) as (query' & results & Hm & Hf).
  pose proof (matching_subset _ _ _ _ _ r Hm (finish_subset _ _ _ _ _ Hf Hin)) as Hv.
  rewrite (prepare_source_values _ _ _ Hc) in Hv.
  apply in_map_iff in Hv as (v & <- & Hv). eauto.
Qed.

Lemma search_returns_lowercased_witness :
  exists v, In v (source_values (SArray ["Apple Pie"]))
            /\ "apple pie" = JS.toLowerCase v.
Proof.
  apply (search_returns_lowercased defaults "apple" (SArray ["Apple Pie"]) 1
           ["apple pie"] "apple pie").
  - reflexivity.
  - vm_compute; reflexivity.
  - left; reflexivity.
Defined.

(** ** Ranking, away from empty strings *)

Lemma sort_steps_flag (query : string) (idx : list nat) (results : list string) :
  snd (fold_left (sort_step query) idx (results, true)) = true.
Proof.
  destruct (sort_steps_cases query idx results true) as [->|(r' & -> & _)];
    reflexivity.
Qed.

Lemma sort_steps_quiet (query : string) (idx : list nat) (results : list string) :
  snd (fold_left (sort_step query) idx (results, false)) = false ->
  forall i, In i idx -> sort_step query (results, false) i = (results, false).
Proof.
  induction idx as [|k idx IH]; cbn [fold_left]; intros Hq i Hi; [destruct Hi|].
  destruct (sort_step_cases query results false k)
    as [E|(t & a & b & d & _ & E & _)]; rewrite E in Hq.
  - destruct Hi as [<-|Hi]; [exact E|apply IH; assumption].
  - rewrite sort_steps_flag in Hq. discriminate.
Qed.

(** After a pass without a swap no two neighbours satisfy the test of the
    loop. *)
Lemma sort_pass_quiet (query : string) (results : list string) (i : nat) (a b : string) :
  snd (sort_pass query results) = false ->
  results !! i = Some a -> results !! (i + 1) = Some b ->
  JS.truthy a && JS.truthy b
  && dist_gt (levenshtein query a) (levenshtein query b) = false.
Proof.
  intros Hq Ha Hb.
  pose proof (sort_steps_quiet query _ results Hq i) as Hs.
  unfold sort_step in Hs. rewrite Ha, Hb in Hs.
  destruct (JS.truthy a && JS.truthy b
            && dist_gt (levenshtein query a) (levenshtein query b));
    [|reflexivity].
  assert (Hi : In i (seq 0 (length results))).
  { apply in_seq. apply lookup_lt_Some in Ha. lia. }
  specialize (Hs Hi). discriminate Hs.
Qed.

Lemma truthy_nonempty (s : string) : s <> "" -> JS.truthy s = true.
Proof.
  intros H. unfold JS.truthy. destruct (String.eqb_spec s ""); [contradiction|reflexivity].
Qed.

Lemma levenshtein_defined (query result : string) :
  query <> "" -> levenshtein query result = Some (sort_key query result).
Proof.
  intros Hq. unfold sort_key.
  destruct (levenshtein query result) eqn:E; [reflexivity|].
  apply levenshtein_undefined_iff in E. contradiction.
Qed.

(** A list without empty strings on which a pass makes no swap is ranked,
    when the query is not empty. *)
Lemma quiet_ranked (query : string) (results : list string) :
  query <> "" -> ~ In "" results ->
  snd (sort_pass query results) = false ->
  ranked query results.
Proof.
  intros Hq Hne Hp.
  assert (Hadj : forall i a b,
             results !! i = Some a -> results !! (S i) = Some b ->
             sort_key query a <= sort_key query b).
  { intros i a b Ha Hb.
    pose proof (sort_pass_quiet query results i a b Hp Ha) as Hc.
    replace (i + 1) with (S i) in Hc by lia. specialize (Hc Hb).
    rewrite !truthy_nonempty in Hc.
    - rewrite !levenshtein_defined in Hc by exact Hq. cbn in Hc.
      apply Nat.ltb_ge in Hc. exact Hc.
    - intros ->. apply Hne, list_elem_of_In. eapply list_elem_of_lookup_2, Hb.
    - intros ->. apply Hne, list_elem_of_In. eapply list_elem_of_lookup_2, Ha. }
  assert (Hall : forall j i r1 r2,
             i < j -> results !! i = Some r1 -> results !! j = Some r2 ->
             sort_key query r1 <= sort_key query r2).
  { induction j as [|j IH]; intros i r1 r2 Hij H1 H2; [lia|].
    destruct (lookup_lt_is_Some_2 results j) as [m Hm].
    { apply lookup_lt_Some in H2. lia. }
    pose proof (Hadj j m r2 Hm H2) as Hstep.
    destruct (Nat.eq_dec i j) as [->|Hne'].
    - rewrite H1 in Hm. injection Hm as ->. exact Hstep.
    - pose proof (IH i r1 m ltac:(lia) H1 Hm). lia. }
  intros i j r1 r2 Hij H1 H2.
  rewrite !levenshtein_defined by exact Hq. cbn.
  apply Nat.leb_le. eapply Hall; eassumption.
Qed.

Lemma ranked_slice0 (query : string) (results : list string) (e : Z) :
  ranked query results -> ranked query (JS.slice0 results e).
Proof.
  unfold JS.slice0. intros Hr i j r1 r2 Hij H1 H2.
  apply lookup_take_Some in H1 as [H1 _]. apply lookup_take_Some in H2 as [H2 _].
  eapply Hr; eassumption.
Qed.

Lemma toLowerCase_empty (s : string) : JS.toLowerCase s = "" -> s = "".
Proof. destruct s; [reflexivity|discriminate]. Qed.

(** The ranking that does hold: when no value of the source is the empty
    string and the final query is not empty, the list returned by search is
    in ascending order of the engine's distance to the final query. *)
Theorem search_ranked_without_blanks (o : Options) (query : string) (source : Source)
    (limit : Z) (query' : string) (results rs : list string) :
  matching o query source = Ok (query', results) ->
  fst (search o query source limit) = Return rs ->
  query' <> "" -> ~ In "" (source_values source) ->
  ranked query' rs.
Proof.
  intros Hm Hr Hq Hne.
  destruct (search_returns _ _ _ _ _ Hr) as (q2 & results2 & Hm2 & Hf).
  rewrite Hm in Hm2. injection Hm2 as <- <-.
  rewrite (finish_returns _ _ _ _ Hf).
  apply ranked_slice0, quiet_ranked; [exact Hq| |].
  - intros Hin.
    apply sortResults_subset, createUniqueArray_subset in Hin.
    apply (matching_subset _ _ _ _ _ _ Hm) in Hin.
    destruct (caseSensitive o) eqn:Hc.
    + rewrite (prepare_source_sensitive _ _ _ Hc) in Hin. exact (Hne Hin).
    + rewrite (prepare_source_values _ _ _ Hc) in Hin.
      apply in_map_iff in Hin as (v & Hv & Hin).
      apply toLowerCase_empty in Hv as ->. exact (Hne Hin).
  - destruct (sortResults_exits (createUniqueArray results) query') as [-> _].
    reflexivity.
Qed.

Lemma search_ranked_without_blanks_witness :
  ranked "kitten" ["kitten"; "mitten"; "sitting"].
Proof.
  apply (search_ranked_without_blanks (mkOptions false 3 false None false)
           "Kitten" (SObject [("a", "sitting"); ("b", "Mitten"); ("c", "kitten")])
           5 "kitten"
           ["sitting"; "mitten"; "kitten"; "kitten"; "kitten"]).
  - vm_compute; reflexivity.
  - vm_compute; reflexivity.
  - discriminate.
  - cbn. intros [H|[H|[H|[]]]]; discriminate H.
Defined.

(** ** What the table holds *)

Lemma lookup_arr_set {A} (a : list A) (j c : nat) (v hole : A) :
  j <= length a ->
  JS.arr_set a j v hole !! c = if c =? j then Some v else a !! c.
Proof.
  intros Hj. unfold JS.arr_set.
  destruct (Nat.ltb_spec j (length a)) as [Hlt|Hge].
  - destruct (Nat.eqb_spec c j) as [->|Hne].
    + apply list_lookup_insert_eq. exact Hlt.
    + apply list_lookup_insert_ne. congruence.
  - replace (j - length a) with 0 by lia. cbn [replicate app].
    destruct (Nat.eqb_spec c j) as [->|Hne].
    + rewrite lookup_app_r by lia. replace (j - length a) with 0 by lia. reflexivity.
    + destruct (Nat.lt_ge_cases c (length a)).
      * rewrite lookup_app_l by lia. reflexivity.
      * rewrite !lookup_ge_None_2; [reflexivity|lia|rewrite length_app; simpl; lia].
Qed.

Lemma cell_set_cell (cost : Table) (i j v r c : nat) :
  i < length cost -> j <= row_len cost i ->
  cell (set_cell cost i j v) r c
  = if (r =? i) && (c =? j) then v else cell cost r c.
Proof.
  intros Hi Hj. unfold cell, set_cell, row_len in *.
  destruct (Nat.eqb_spec r i) as [->|Hne]; cbn [andb].
  - rewrite list_lookup_alter_eq.
    destruct (lookup_lt_is_Some_2 cost i Hi) as [row E]. rewrite E in *. cbn in *.
    rewrite lookup_arr_set by exact Hj.
    destruct (c =? j); reflexivity.
  - rewrite list_lookup_alter_ne by congruence. reflexivity.
Qed.

Lemma filled_set_cell (P : nat -> nat -> nat -> Prop) (cost : Table) (rows : nat)
    (len len' : nat -> nat) (i j v : nat) :
  filled P cost rows len -> i < rows -> j <= len i -> P i j v ->
  (forall r, r < rows ->
     len' r = if r =? i then Nat.max (len i) (S j) else len r) ->
  filled P (set_cell cost i j v) rows len'.
Proof.
  intros [Hs Hv] Hi Hj Hp Hlen.
  split; [eapply shaped_set_cell; eassumption|].
  intros r c Hr Hc. destruct Hs as [Hl Hrl].
  rewrite cell_set_cell by (rewrite ?Hrl; lia).
  rewrite (Hlen r Hr) in Hc.
  destruct (Nat.eqb_spec r i) as [->|Hne]; cbn [andb].
  - destruct (Nat.eqb_spec c j) as [->|Hne]; [exact Hp|]. apply Hv; lia.
  - apply Hv; assumption.
Qed.

Lemma filled_ext (P : nat -> nat -> nat -> Prop) (cost : Table) (rows : nat)
    (len len' : nat -> nat) :
  filled P cost rows len -> (forall r, r < rows -> len r = len' r) ->
  filled P cost rows len'.
Proof.
  intros [Hs Hv] He. split; [eapply shaped_ext; eassumption|].
  intros r c Hr Hc. apply Hv; [exact Hr|]. rewrite He; assumption.
Qed.

Section lev_invariant.
Variables (str1 str2 : string) (n m : nat).
Variable P : nat -> nat -> nat -> Prop.
Hypothesis Hcol : forall r, r <= n -> P r 0 r.
Hypothesis Hrow : forall c, c <= m -> P 0 c c.
Hypothesis Hstep : forall i j a b c,
  1 <= i <= n -> 1 <= j <= m ->
  P (i - 1) (j - 1) a -> P i (j - 1) b -> P (i - 1) j c ->
  P i j (if String.eqb (JS.charAt str1 (i - 1)) (JS.charAt str2 (j - 1))
         then a else 1 + minimum a b c).

Lemma lev_init_filled :
  filled P (lev_init n m) (S n) (fun r => if r =? 0 then S m else 1).
Proof.
  unfold lev_init.
  assert (H1 : shaped (fold_left new_row (seq 0 (S n)) []) (S n) (fun _ => 0)).
  { apply (fold_left_seq_inv (fun k c => shaped c k (fun _ => 0)) new_row (S n) 0).
    - split; [reflexivity|]. intros r Hr; lia.
    - intros k y _ Hy. apply shaped_new_row, Hy. }
  set (c1 := fold_left new_row (seq 0 (S n)) []) in *.
  assert (H2 : filled P (fold_left (fun cost i => set_cell cost i 0 i) (seq 0 (S n)) c1)
                 (S n) (fun _ => 1)).
  { pose proof (fold_left_seq_inv
      (fun k c => filled P c (S n) (fun r => if r <? k then 1 else 0))
      (fun cost i => set_cell cost i 0 i) (S n) 0 c1) as H.
    cbn beta in H. eapply filled_ext; [apply H|].
    - split; [exact H1|]. intros r c Hr Hc. cbn in Hc. lia.
    - intros k y Hk Hy. eapply filled_set_cell; [exact Hy|lia|apply Nat.le_0_l|apply Hcol; lia|].
      intros r Hlt. cbn beta.
      destruct (Nat.eqb_spec r k), (Nat.ltb_spec r (S k)), (Nat.ltb_spec r k),
        (Nat.ltb_spec k k); lia.
    - intros r Hr. cbn beta. destruct (Nat.ltb_spec r (0 + S n)); [reflexivity|lia]. }
  set (c2 := fold_left _ (seq 0 (S n)) c1) in *.
  pose proof (fold_left_seq_inv
    (fun k c => filled P c (S n) (fun r => if r =? 0 then Nat.max 1 k else 1))
    (fun cost j => set_cell cost 0 j j) (S m) 0 c2) as H.
  cbn beta in H. eapply filled_ext; [apply H|].
  - eapply filled_ext; [exact H2|]. intros r Hr. destruct (r =? 0); reflexivity.
  - intros k y Hk Hy. eapply filled_set_cell; [exact Hy|lia|cbn; lia|apply Hrow; lia|].
    intros r Hlt. cbn beta. destruct (Nat.eqb_spec r 0); simpl; lia.
  - intros r Hr. cbn beta. destruct (r =? 0); lia.
Qed.

Lemma lev_cell_filled (i j : nat) (cost : Table) :
  1 <= i <= n -> 1 <= j <= m ->
  filled P cost (S n) (fill_len m i j) ->
  filled P (lev_cell str1 str2 i cost j) (S n) (fill_len m i (S j)).
Proof.
  intros Hi Hj Hf.
  assert (Hv : forall r c, r < S n -> c < fill_len m i j r -> P r c (cell cost r c))
    by apply Hf.
  assert (Ha : P (i - 1) (j - 1) (cell cost (i - 1) (j - 1))).
  { apply Hv; [lia|]. unfold fill_len. destruct (Nat.ltb_spec (i - 1) i); lia. }
  assert (Hb : P i (j - 1) (cell cost i (j - 1))).
  { apply Hv; [lia|]. unfold fill_len.
    destruct (Nat.ltb_spec i i), (Nat.eqb_spec i i); lia. }
  assert (Hc : P (i - 1) j (cell cost (i - 1) j)).
  { apply Hv; [lia|]. unfold fill_len. destruct (Nat.ltb_spec (i - 1) i); lia. }
  pose proof (Hstep i j _ _ _ Hi Hj Ha Hb Hc) as Hnew.
  unfold lev_cell.
  destruct (String.eqb _ _);
    (eapply filled_set_cell; [exact Hf|lia| |exact Hnew|]);
    try (intros r Hr); unfold fill_len;
    repeat match goal with
      | |- context [?a <? ?b] => destruct (Nat.ltb_spec a b)
      | |- context [?a =? ?b] => destruct (Nat.eqb_spec a b)
      end; lia.
Qed.

Lemma lev_fill_filled :
  filled P (lev_fill str1 str2 n m (lev_init n m)) (S n) (fill_len m (S n) 1).
Proof.
  unfold lev_fill.
  apply (fold_left_seq_inv
           (fun i cost => filled P cost (S n) (fill_len m i 1))
           (fun cost i => fold_left (lev_cell str1 str2 i) (seq 1 m) cost)
           n 1 (lev_init n m)).
  - eapply filled_ext; [apply lev_init_filled|].
    intros r Hr. unfold fill_len.
    destruct (Nat.eqb_spec r 0), (Nat.ltb_spec r 1), (Nat.eqb_spec r 1); lia.
  - intros i cost Hi Hf.
    eapply filled_ext.
    + apply (fold_left_seq_inv
               (fun j cost => filled P cost (S n) (fill_len m i j))
               (lev_cell str1 str2 i) m 1 cost); [exact Hf|].
      intros j c Hj Hc. apply lev_cell_filled; [lia|lia|exact Hc].
    + intros r Hr. unfold fill_len.
      destruct (Nat.ltb_spec r i), (Nat.eqb_spec r i), (Nat.ltb_spec r (S i)),
        (Nat.eqb_spec r (S i)); lia.
Qed.

(** Whatever holds of row 0 and column 0 and is kept by the recurrence
    holds of the cell the function returns. *)
Lemma lev_fill_result :
  P n m (cell (lev_fill str1 str2 n m (lev_init n m)) n m).
Proof.
  destruct lev_fill_filled as [_ Hv]. apply Hv; [lia|].
  unfold fill_len. destruct (Nat.ltb_spec n (S n)); lia.
Qed.

End lev_invariant.

Lemma minimum_le (a b c : nat) :
  minimum a b c <= a /\ minimum a b c <= b /\ minimum a b c <= c.
Proof.
  unfold minimum.
  destruct (Nat.ltb_spec b a);
    repeat match goal with
      | |- context [?x <? ?y] => destruct (Nat.ltb_spec x y)
      end; lia.
Qed.

Lemma minimum_cases (a b c : nat) :
  minimum a b c = a \/ minimum a b c = b \/ minimum a b c = c.
Proof.
  unfold minimum.
  destruct (Nat.ltb_spec b a);
    repeat match goal with
      | |- context [?x <? ?y] => destruct (Nat.ltb_spec x y)
      end; tauto.
Qed.

Lemma levenshtein_value (word1 word2 : string) :
  word1 <> "" ->
  levenshtein word1 word2
  = Some (cell (lev_fill word1 word2 (JS.length word1) (JS.length word1)
                  (lev_init (JS.length word1) (JS.length word1)))
            (JS.length word1) (JS.length word1)).
Proof.
  intros H. unfold levenshtein.
  destruct word1 as [|c w]; [contradiction|]. reflexivity.
Qed.

(** X3: the table filled by the loops of [levenshtein] holds the recurrence:
    a non-empty first word gets the value of the recurrence at
    (n, n), n its own length, whatever the length of the second word. *)
Theorem levenshtein_recurrence (word1 word2 : string) :
  word1 <> "" ->
  levenshtein word1 word2
  = Some (lev_at word1 word2 (JS.length word1) (JS.length word1)).
Proof.
  intros H. rewrite (levenshtein_value word1 word2 H). f_equal.
  apply (lev_fill_result word1 word2 _ _ (fun r c v => v = lev_at word1 word2 r c)).
  - intros r _. destruct r; reflexivity.
  - intros c _. reflexivity.
  - intros i j a b c Hi Hj -> -> ->.
    destruct i as [|i]; [lia|]. destruct j as [|j]; [lia|].
    cbn [Nat.sub]. rewrite !Nat.sub_0_r. reflexivity.
Qed.

Lemma levenshtein_recurrence_witness :
  levenshtein "flaw" "lawn" = Some (lev_at "flaw" "lawn" 4 4).
Proof.
  apply (levenshtein_recurrence "flaw" "lawn"). discriminate.
Defined.

Lemma levenshtein_le_length (word1 word2 : string) (d : nat) :
  levenshtein word1 word2 = Some d -> d <= JS.length word1.
Proof.
  intros H.
  destruct (String.eqb_spec word1 "") as [->|Hne]; [discriminate H|].
  rewrite (levenshtein_value word1 word2 Hne) in H. injection H as <-.
  pose proof (lev_fill_result word1 word2 (JS.length word1) (JS.length word1)
                (fun r c v => v <= Nat.max r c)) as Hr.
  cbn beta in Hr. rewrite Nat.max_id in Hr. apply Hr.
  - intros r _. lia.
  - intros c _. lia.
  - intros i j a b c Hi Hj Ha Hb Hc.
    pose proof (minimum_le a b c).
    destruct (String.eqb _ _); lia.
Qed.

(** X4: the distance [levenshtein] returns never exceeds the length of
    the first word. *)
Theorem levenshtein_at_most_length (word1 word2 : string) (d : nat) :
  levenshtein word1 word2 = Some d -> d <= JS.length word1.
Proof. apply levenshtein_le_length. Qed.

Lemma levenshtein_at_most_length_witness : 2 <= JS.length "ab".
Proof.
  apply (levenshtein_at_most_length "ab" "xyzzy" 2). reflexivity.
Defined.

Lemma charAt_cons (c : ascii) (s : string) (k : nat) :
  JS.charAt (String c s) (S k) = JS.charAt s k.
Proof. reflexivity. Qed.

Lemma charAt_agree_prefix (word1 word2 : string) :
  (forall k, k < JS.length word1 -> JS.charAt word1 k = JS.charAt word2 k)
  <-> exists rest, word2 = word1 +:+ rest.
Proof.
  revert word2. induction word1 as [|c w IH]; intros word2.
  - split; [intros _; exists word2; reflexivity|]. intros _ k Hk. cbn in Hk. lia.
  - split.
    + intros H. destruct word2 as [|c2 w2].
      * specialize (H 0 ltac:(unfold JS.length; cbn [String.length]; lia)).
        discriminate H.
      * pose proof (H 0 ltac:(unfold JS.length; cbn [String.length]; lia)) as H0.
        injection H0 as ->.
        destruct (proj1 (IH w2)) as [rest ->].
        { intros k Hk. specialize (H (S k)). rewrite !charAt_cons in H.
          apply H. unfold JS.length in *. cbn [String.length]. lia. }
        exists rest. reflexivity.
    + intros [rest ->] k Hk. destruct k as [|k]; [reflexivity|].
      cbn [String.append]. rewrite !charAt_cons.
      apply (proj2 (IH (w +:+ rest))); [eauto|].
      unfold JS.length in *. cbn [String.length] in Hk. lia.
Qed.

(** X5: [levenshtein] returns 0 exactly when the second word starts with the
    non-empty first word; the rest of the second word is not looked at. *)
Theorem levenshtein_zero_iff (word1 word2 : string) :
  levenshtein word1 word2 = Some 0
  <-> word1 <> "" /\ exists rest, word2 = word1 +:+ rest.
Proof.
  rewrite <- charAt_agree_prefix.
  split.
  - intros H.
    destruct (String.eqb_spec word1 "") as [->|Hne]; [discriminate H|].
    split; [exact Hne|].
    rewrite (levenshtein_value word1 word2 Hne) in H. injection H as H.
    pose proof (lev_fill_result word1 word2 (JS.length word1) (JS.length word1)
                  (fun r c v =>
                     r - c <= v /\ c - r <= v
                     /\ (v = 0 -> forall k, k < r ->
                           JS.charAt word1 k = JS.charAt word2 k))) as Hr.
    cbn beta in Hr. rewrite H in Hr.
    destruct Hr as (_ & _ & Hz); [| | |exact (Hz eq_refl)]; clear H.
    + intros r _. repeat split; lia.
    + intros c _. repeat split; lia.
    + intros i j a b c Hi Hj (Ha1 & Ha2 & Ha) (Hb1 & Hb2 & _) (Hc1 & Hc2 & _).
      destruct (String.eqb_spec (JS.charAt word1 (i - 1)) (JS.charAt word2 (j - 1)))
        as [E|_].
      * repeat split; try lia. intros -> k Hk.
        assert (i = j) by lia. subst j.
        destruct (Nat.eq_dec k (i - 1)) as [->|Hne']; [exact E|].
        apply Ha; [reflexivity|lia].
      * destruct (minimum_cases a b c) as [->|[->| ->]]; repeat split; try lia;
          discriminate.
  - intros [Hne Hagree].
    rewrite (levenshtein_value word1 word2 Hne). f_equal.
    apply (lev_fill_result word1 word2 (JS.length word1) (JS.length word1)
             (fun r c v => r = c -> v = 0)); [| |intros i j a b c Hi Hj Ha _ _ <-|reflexivity].
    + intros r _ <-. reflexivity.
    + intros c _ ->. reflexivity.
    + rewrite Hagree by lia. rewrite String.eqb_refl. apply Ha. reflexivity.
Qed.

(** ** Deduplication *)

Lemma arr_indexOf_lookup (a : list string) (x : string) (i : nat) :
  JS.arr_indexOf a x = Z.of_nat i -> a !! i = Some x.
Proof.
  revert i. induction a as [|y t IH]; intros i; cbn [JS.arr_indexOf]; [lia|].
  destruct (String.eqb_spec y x) as [->|Hne].
  - intros Hi. assert (i = 0) as -> by lia. reflexivity.
  - destruct (Z.ltb_spec (JS.arr_indexOf t x) 0) as [Hlt|Hge]; [lia|].
    intros Hi. destruct i as [|i]; [lia|]. cbn. apply IH. lia.
Qed.

Lemma arr_indexOf_found (a : list string) (x : string) :
  In x a -> exists i, JS.arr_indexOf a x = Z.of_nat i.
Proof.
  induction a as [|y t IH]; intros Hin; [destruct Hin|]. cbn [JS.arr_indexOf].
  destruct (String.eqb_spec y x) as [->|Hne]; [exists 0; reflexivity|].
  destruct Hin as [->|Hin]; [contradiction|].
  destruct (IH Hin) as [i Hi]. rewrite Hi.
  destruct (Z.ltb_spec (Z.of_nat i) 0) as [Hlt|Hge]; [lia|]. exists (S i). lia.
Qed.

Lemma imap_pair_fst (k : nat) (arr : list string) :
  map fst (imap (fun pos item => (k + pos, item)) arr) = seq k (length arr).
Proof.
  revert k. induction arr as [|x t IH]; intros k; [reflexivity|].
  rewrite imap_cons. cbn [map fst length seq]. rewrite Nat.add_0_r. f_equal.
  rewrite <- IH. f_equal. apply imap_ext. intros i y _. cbn. f_equal. lia.
Qed.

Lemma imap_pair_snd (k : nat) (arr : list string) :
  map snd (imap (fun pos item => (k + pos, item)) arr) = arr.
Proof.
  revert k. induction arr as [|x t IH]; intros k; [reflexivity|].
  rewrite imap_cons. cbn [map snd]. f_equal.
  rewrite <- (IH (S k)) at 2. f_equal. apply imap_ext. intros i y _. cbn. f_equal. lia.
Qed.

Lemma imap_pair_NoDup (arr : list string) :
  NoDup (imap (fun pos item => (pos, item)) arr).
Proof.
  apply NoDup_ListNoDup. apply NoDup_map_inv with (f := fst).
  pose proof (imap_pair_fst 0 arr) as E. cbn [Nat.add] in E. rewrite E.
  apply seq_NoDup.
Qed.


Lemma createUniqueArray_NoDup (arr : list string) : NoDup (createUniqueArray arr).
Proof.
  unfold createUniqueArray. apply NoDup_ListNoDup, NoDup_map_NoDup_ForallPairs.
  - intros [p1 x1] [p2 x2] H1 H2. cbn [snd]. intros <-.
    apply filter_In in H1 as [_ H1]. apply filter_In in H2 as [_ H2].
    f_equal. lia.
  - apply List.NoDup_filter, NoDup_ListNoDup, imap_pair_NoDup.
Qed.

Lemma createUniqueArray_In (arr : list string) (x : string) :
  In x (createUniqueArray arr) <-> In x arr.
Proof.
  split; [apply createUniqueArray_subset|].
  intros Hin. destruct (arr_indexOf_found arr x Hin) as [i Hi].
  unfold createUniqueArray. apply in_map_iff. exists (i, x). split; [reflexivity|].
  apply filter_In. split; [|lia].
  apply list_elem_of_In, elem_of_lookup_imap. exists i, x.
  split; [reflexivity|]. apply arr_indexOf_lookup, Hi.
Qed.


Lemma filter_all {A} (p : A -> bool) (l : list A) :
  (forall x, In x l -> p x = true) -> List.filter p l = l.
Proof.
  induction l as [|x t IH]; intros H; cbn; [reflexivity|].
  rewrite (H x) by (left; reflexivity). f_equal. apply IH. intros y Hy. apply H.
  right; exact Hy.
Qed.

Lemma createUniqueArray_NoDup_id (arr : list string) :
  NoDup arr -> createUniqueArray arr = arr.
Proof.
  intros Hnd. unfold createUniqueArray. rewrite filter_all.
  - exact (imap_pair_snd 0 arr).
  - intros [pos item] Hin.
    apply list_elem_of_In, elem_of_lookup_imap in Hin as (i & y & [= -> ->] & Hl).
    destruct (arr_indexOf_found arr y) as [k Hk].
    { apply list_elem_of_In. eapply list_elem_of_lookup_2, Hl. }
    pose proof (arr_indexOf_lookup arr y k Hk) as Hl'.
    pose proof (proj1 (NoDup_alt arr) Hnd i k y Hl Hl'). lia.
Qed.


(** [createUniqueArray] leaves an array without duplicates unchanged, so
    applying it twice is the same as applying it once. *)
Theorem createUniqueArray_idempotent (arr : list string) :
  createUniqueArray (createUniqueArray arr) = createUniqueArray arr.
Proof. apply createUniqueArray_NoDup_id, createUniqueArray_NoDup. Qed.

(** ** The exchange sort, as its callers see it *)

(** X6: [sortResults] only reorders: the array it returns is a permutation of
    the array it was given. *)
Theorem sortResults_permutes (results : list string) (query : string) :
  sortResults results query ≡ₚ results.
Proof. apply sortResults_perm. Qed.

(** X7: the [do ... while] loop of [sortResults] ends: once more passes are
    allowed than the square of the length, the result no longer depends
    on the allowance, and a further pass over it swaps nothing. *)
Theorem sortResults_terminates (results : list string) (query : string) (fuel : nat) :
  S (length results * length results) <= fuel ->
  sort_loop fuel query results = sortResults results query
  /\ sort_pass query (sortResults results query) = (sortResults results query, false).
Proof.
  intros Hle. destruct (sortResults_exits results query) as [Hq Hm].
  split; [apply Hm, Hle|exact Hq].
Qed.

Lemma sortResults_terminates_witness :
  sort_loop 50 "abd" ["abc"; "abd"; "xyz"; "abx"]
  = sortResults ["abc"; "abd"; "xyz"; "abx"] "abd"
  /\ sort_pass "abd" (sortResults ["abc"; "abd"; "xyz"; "abx"] "abd")
     = (sortResults ["abc"; "abd"; "xyz"; "abx"] "abd", false).
Proof.
  apply (sortResults_terminates ["abc"; "abd"; "xyz"; "abx"] "abd" 50).
  cbn. lia.
Defined.

(** X8: for a non-empty query and an array without empty strings,
    [sortResults] returns the array in ascending order of distance to the
    query. *)
Theorem sortResults_ascending (results : list string) (query : string) :
  query <> "" -> ~ In "" results ->
  ranked query (sortResults results query).
Proof.
  intros Hq Hne. apply quiet_ranked; [exact Hq| |].
  - intros Hin. apply Hne. eapply sortResults_subset, Hin.
  - destruct (sortResults_exits results query) as [-> _]. reflexivity.
Qed.

Lemma sortResults_ascending_witness :
  ranked "abd" (sortResults ["abc"; "abd"; "xyz"; "abx"] "abd").
Proof.
  apply (sortResults_ascending ["abc"; "abd"; "xyz"; "abx"] "abd").
  - discriminate.
  - cbn. intros [H|[H|[H|[H|[]]]]]; discriminate H.
Defined.

Lemma sort_loop_fixed (fuel : nat) (query : string) (results : list string) :
  sort_pass query results = (results, false) ->
  sort_loop fuel query results = results.
Proof. intros H. destruct fuel as [|fuel]; [reflexivity|]. cbn. rewrite H. reflexivity. Qed.

(** X9: sorting a sorted array again changes nothing. *)
Theorem sortResults_idempotent (results : list string) (query : string) :
  sortResults (sortResults results query) query = sortResults results query.
Proof.
  unfold sortResults at 1. apply sort_loop_fixed.
  apply (sortResults_exits results query).
Qed.

Lemma sort_steps_empty_query (idx : list nat) (st : list string * bool) :
  fold_left (sort_step "") idx st = st.
Proof.
  induction idx as [|i idx IH] in st |- *; cbn [fold_left]; [reflexivity|].
  rewrite <- (IH st) at 2. f_equal.
  destruct st as [results swapped]. unfold sort_step.
  destruct (results !! i) as [a|]; [|reflexivity].
  destruct (results !! (i + 1)) as [b|]; [|reflexivity].
  cbn. rewrite !andb_false_r. reflexivity.
Qed.

(** With the empty string as the query every distance is undefined, no
    comparison succeeds and [sortResults] returns the array as it is. *)
Theorem sortResults_empty_query (results : list string) :
  sortResults results "" = results.
Proof. apply sort_loop_fixed, sort_steps_empty_query. Qed.

(** ** Similar words *)

Lemma getSimilarWords_In (input : string) (source : list string) (threshold : Z)
    (w : string) :
  In w (getSimilarWords input source threshold)
  <-> In w source /\ w <> ""
      /\ exists d, levenshtein input w = Some d /\ (Z.of_nat d <= threshold)%Z.
Proof.
  unfold getSimilarWords.
  split.
  - intros H. apply sortResults_subset in H. unfold filter in H.
    apply filter_In in H as [Hin Hp]. split; [exact Hin|].
    destruct (levenshtein input w) as [d|]; cbn in Hp; [|discriminate].
    destruct (Z.leb_spec (Z.of_nat d) threshold); [|discriminate].
    split; [|eauto]. intros ->. discriminate Hp.
  - intros (Hin & Hne & d & Hd & Hle).
    apply (Permutation_in w (Permutation_sym (sortResults_perm _ input))).
    unfold filter. apply filter_In. split; [exact Hin|].
    rewrite Hd. cbn. destruct (Z.leb_spec (Z.of_nat d) threshold); [|lia].
    apply truthy_nonempty, Hne.
Qed.

(** X11: [getSimilarWords], called without a limit, returns exactly the
    non-empty words of the source whose distance to the input is defined
    and at most the threshold. *)
Theorem getSimilarWords_selects (input : string) (source : list string)
    (threshold : Z) (w : string) :
  In w (getSimilarWords input source threshold)
  <-> In w source /\ w <> ""
      /\ exists d, levenshtein input w = Some d /\ (Z.of_nat d <= threshold)%Z.
Proof. apply getSimilarWords_In. Qed.

(** X12: the words [getSimilarWords] returns are in ascending order of
    distance to the input. *)
Theorem getSimilarWords_ranked (input : string) (source : list string) (threshold : Z) :
  ranked input (getSimilarWords input source threshold).
Proof.
  destruct (String.eqb_spec input "") as [->|Hne].
  - intros i j r1 r2 _ H1 _.
    apply list_elem_of_lookup_2, list_elem_of_In, getSimilarWords_In in H1.
    destruct H1 as (_ & _ & d & Hd & _). discriminate Hd.
  - unfold getSimilarWords. apply quiet_ranked; [exact Hne| |].
    + intros Hin. apply sortResults_subset in Hin. unfold filter in Hin.
      apply filter_In in Hin as [_ Hp].
      destruct (dist_ge0 _ && _) in Hp; discriminate Hp.
    + match goal with
      | |- context [sortResults ?l input] =>
          destruct (sortResults_exits l input) as [-> _]
      end. reflexivity.
Qed.

(** ** What a search returns *)

Lemma prepare_candidates (o : Options) (query : string) (source : Source) :
  source_values (p_source (prepare o query source))
  = map (folded o) (source_values source).
Proof.
  unfold folded. destruct (caseSensitive o) eqn:Hc.
  - rewrite (prepare_source_sensitive _ _ _ Hc). symmetry. apply map_id.
  - apply prepare_source_values, Hc.
Qed.

Lemma join_empty (sep : string) (a : list string) (x : string) :
  JS.join sep a = "" -> In x a -> x = "".
Proof.
  induction a as [|y t IH]; intros Hj Hin; [destruct Hin|].
  cbn [JS.join] in Hj. destruct t as [|z t'].
  - destruct Hin as [<-|[]]. exact Hj.
  - destruct y; [|discriminate Hj]. cbn in Hj.
    destruct sep; [|discriminate Hj]. cbn in Hj.
    destruct Hin as [<-|Hin]; [reflexivity|]. apply IH; assumption.
Qed.

Lemma finish_not_null (results : list string) (query : string) (limit : Z) (x : string) :
  In x results -> x <> "" ->
  finish results query limit
  = Return (JS.slice0 (sortResults (createUniqueArray results) query) limit).
Proof.
  intros Hin Hne. unfold finish.
  destruct (String.eqb_spec (JS.join "," results) "") as [E|_]; [|reflexivity].
  contradiction Hne. eapply join_empty; eassumption.
Qed.

Lemma slice0_all {A} (a : list A) (e : Z) :
  (Z.of_nat (length a) <= e)%Z -> JS.slice0 a e = a.
Proof.
  intros H. unfold JS.slice0.
  destruct (Z.ltb_spec e 0); [lia|]. apply take_ge. lia.
Qed.

Lemma sorted_unique_NoDup (results : list string) (query : string) :
  NoDup (sortResults (createUniqueArray results) query).
Proof.
  rewrite sortResults_perm. apply createUniqueArray_NoDup.
Qed.

(** X20: no value appears twice in the list returned by search. *)
Theorem search_no_duplicates (o : Options) (query : string) (source : Source)
    (limit : Z) (rs : list string) :
  fst (search o query source limit) = Return rs -> NoDup rs.
Proof.
  intros Hr. destruct (search_returns _ _ _ _ _ Hr) as (q' & results & _ & Hf).
  rewrite (finish_returns _ _ _ _ Hf). unfold JS.slice0.
  eapply sublist_NoDup; [apply sorted_unique_NoDup|apply sublist_take].
Qed.

Lemma search_no_duplicates_witness : NoDup ["apple pie"].
Proof.
  apply (search_no_duplicates defaults "pie apple"
           (SArray ["apple pie"; "banana split"; "apple pie"]) 3).
  vm_compute. reflexivity.
Defined.

(** X21: with a limit of at least 1, search never returns an empty list:
    no match is reported by null. *)
Theorem search_result_nonempty (o : Options) (query : string) (source : Source)
    (limit : Z) (rs : list string) :
  (1 <= limit)%Z ->
  fst (search o query source limit) = Return rs -> rs <> [].
Proof.
  intros Hl Hr. destruct (search_returns _ _ _ _ _ Hr) as (q' & results & _ & Hf).
  pose proof (finish_returns _ _ _ _ Hf) as ->.
  unfold finish in Hf.
  destruct (String.eqb_spec (JS.join "," results) "") as [|Hj]; [discriminate|].
  destruct results as [|x t]; [contradiction Hj; reflexivity|].
  assert (Hin : In x (sortResults (createUniqueArray (x :: t)) q')).
  { apply (Permutation_in x (Permutation_sym (sortResults_perm _ q'))).
    apply createUniqueArray_In. left; reflexivity. }
  destruct (sortResults (createUniqueArray (x :: t)) q') as [|y l]; [destruct Hin|].
  unfold JS.slice0. destruct (Z.ltb_spec limit 0); [lia|].
  cbn [length]. destruct (Z.to_nat (Z.min limit (Z.of_nat (S (length l))))) eqn:E;
    [lia|discriminate].
Qed.

Lemma search_result_nonempty_witness : ["apple pie"] <> [].
Proof.
  apply (search_result_nonempty defaults "pie apple"
           (SArray ["apple pie"; "banana split"]) 1).
  - lia.
  - vm_compute. reflexivity.
Defined.

(** X23: for a source that is neither an array nor a plain object search
    returns null, unless stemming is on with case sensitivity off. *)
Theorem search_unsupported_source (o : Options) (query : string) (limit : Z) :
  caseSensitive o = true \/ stemming o = false ->
  search o query SOther limit = (Null, SOther).
Proof.
  intros Ho. unfold search.
  destruct (String.eqb query ""); cbn [negb]; [reflexivity|].
  assert (Hp : p_caller (prepare o query SOther) = SOther).
  { unfold prepare. destruct (caseSensitive o); reflexivity. }
  rewrite Hp. f_equal.
  unfold matching.
  assert (Hs : p_source (prepare o query SOther) = SOther).
  { unfold prepare. destruct (caseSensitive o); reflexivity. }
  rewrite Hs.
  destruct (stemming o) eqn:Hst.
  - destruct Ho as [Hc|]; [|discriminate].
    unfold prepare. rewrite Hc. cbn [p_tokens].
    match goal with |- context [stem (Some ?ts)] =>
      destruct (stem_defined ts) as (ts' & q' & ->) end.
    reflexivity.
  - reflexivity.
Qed.

Lemma search_unsupported_source_witness :
  search defaults "apple" SOther 1 = (Null, SOther).
Proof. apply (search_unsupported_source defaults "apple" 1). right. reflexivity. Defined.

Lemma matching_inv (o : Options) (query : string) (source : Source)
    (query' : string) (results : list string) :
  matching o query source = Ok (query', results) ->
  exists tokens,
    runTiers o query' tokens (p_source (prepare o query source)) = Ok results.
Proof.
  unfold matching.
  destruct (if stemming o then stem (p_tokens (prepare o query source))
            else Ok (p_tokens (prepare o query source),
                     p_query (prepare o query source)))
    as [[tokens q]|]; cbn [bind]; [|discriminate].
  destruct (runTiers o q tokens (p_source (prepare o query source)))
    as [r|] eqn:Hr; cbn [bind]; [|discriminate].
  intros [= <- <-]. eauto.
Qed.

(** What the tiers push for one candidate value [e] of the source they
    run on. *)
Lemma runTiers_pushes (o : Options) (query : string) (tokens : option (list string))
    (source : Source) (results : list string) (e : string) :
  runTiers o query tokens source = Ok results ->
  In e (source_values source) ->
  (JS.indexOf e query <> (-1)%Z -> In e results)
  /\ ((0 < flexibility o)%Z -> e <> "" -> query <> "" ->
      (Z.of_nat (JS.length query) <= flexibility o)%Z -> In e results).
Proof.
  intros Hr Hin.
  assert (Hlen : forall s, JS.length (JS.toLowerCase s) = JS.length s).
  { intros s. unfold JS.length. induction s; cbn; congruence. }
  destruct source as [[|e0 a]|[|e0 kv]|]; cbn [runTiers source_values] in *;
    try (exfalso; exact Hin).
  - destruct tokens as [ts|]; [|discriminate]. cbn in Hr. injection Hr as <-.
    unfold arrayTiers.
    split.
    + intros Hidx.
      assert (Ht : In e (List.filter
                           (fun e => negb (JS.indexOf e query =? -1)%Z) (e0 :: a))).
      { apply filter_In. split; [exact Hin|].
        destruct (Z.eqb_spec (JS.indexOf e query) (-1)); [contradiction|reflexivity]. }
      destruct (0 <? flexibility o)%Z; rewrite ?in_app_iff; tauto.
    + intros Hf Hne Hq Hshort.
      destruct (Z.ltb_spec 0 (flexibility o)); [|lia].
      rewrite !in_app_iff. right. apply getSimilarWords_In.
      split; [exact Hin|]. split; [exact Hne|].
      destruct (levenshtein query e) as [d|] eqn:Hd.
      * exists d. split; [reflexivity|].
        pose proof (levenshtein_le_length _ _ _ Hd). lia.
      * apply levenshtein_undefined_iff in Hd. contradiction.
  - destruct tokens as [ts|]; [|discriminate]. cbn [tokens_read bind] in Hr.
    injection Hr as <-.
    change (In e (map snd (e0 :: kv))) in Hin.
    apply in_map_iff in Hin as ([key value] & <- & Hin). cbn [snd].
    assert (Hsub : forall x, In x (objectTiers o query ts value) ->
                   In x (flat_map (fun '(_, value) => objectTiers o query ts value)
                           (e0 :: kv))).
    { intros x Hx. apply in_flat_map. exists (key, value). split; assumption. }
    split.
    + intros Hidx. apply Hsub. unfold objectTiers.
      destruct (Z.eqb_spec (JS.indexOf value query) (-1)); [contradiction|].
      left; reflexivity.
    + intros Hf Hne Hq Hshort. apply Hsub. unfold objectTiers.
      rewrite !in_app_iff. right; right.
      destruct (Z.ltb_spec 0 (flexibility o)); [|lia].
      destruct (levenshtein (JS.toLowerCase query) (JS.toLowerCase value))
        as [d|] eqn:Hd.
      * pose proof (levenshtein_le_length _ _ _ Hd) as Hb.
        rewrite Hlen in Hb. cbn [dist_le_num].
        destruct (Z.leb_spec (Z.of_nat d) (flexibility o)); [left; reflexivity|lia].
      * apply levenshtein_undefined_iff, toLowerCase_empty in Hd. contradiction.
Qed.

Lemma unique_length_le (results values : list string) :
  (forall x, In x results -> In x values) ->
  length (createUniqueArray results) <= length values.
Proof.
  intros Hsub. apply submseteq_length, NoDup_submseteq.
  - apply createUniqueArray_NoDup.
  - intros x Hx. apply list_elem_of_In. apply Hsub.
    apply createUniqueArray_In, list_elem_of_In, Hx.
Qed.

(** When the limit is at least the number of candidates, the slice cuts
    nothing off: a raw match that is not the empty string is returned. *)
Lemma search_keeps_match (o : Options) (query : string) (source : Source)
    (limit : Z) (query' : string) (results : list string) (e : string) :
  query <> "" ->
  matching o query source = Ok (query', results) ->
  In e results -> e <> "" ->
  (Z.of_nat (length (source_values source)) <= limit)%Z ->
  exists rs, fst (search o query source limit) = Return rs /\ In e rs.
Proof.
  intros Hq Hm Hin Hne Hl. unfold search.
  destruct (String.eqb_spec query "") as [|_]; [contradiction|]. cbn [negb fst].
  rewrite Hm, (finish_not_null results query' limit e Hin Hne).
  eexists; split; [reflexivity|].
  rewrite slice0_all.
  - apply (Permutation_in e (Permutation_sym (sortResults_perm _ query'))).
    apply createUniqueArray_In, Hin.
  - pose proof (Permutation_length (sortResults_perm (createUniqueArray results) query')) as ->.
    pose proof (unique_length_le results
                  (source_values (p_source (prepare o query source)))
                  (fun x => matching_subset _ _ _ _ _ x Hm)) as Hu.
    rewrite prepare_candidates, length_map in Hu. lia.
Qed.

Lemma search_substring_match (o : Options) (query : string)
    (source : Source) (limit : Z) (query' : string) (results : list string)
    (value : string) :
  query <> "" ->
  matching o query source = Ok (query', results) ->
  In value (source_values source) -> folded o value <> "" ->
  JS.indexOf (folded o value) query' <> (-1)%Z ->
  (Z.of_nat (length (source_values source)) <= limit)%Z ->
  exists rs, fst (search o query source limit) = Return rs
             /\ In (folded o value) rs.
Proof.
  intros Hq Hm Hin Hne Hidx Hl.
  destruct (matching_inv _ _ _ _ _ Hm) as (tokens & Hr).
  eapply search_keeps_match; try eassumption.
  destruct (runTiers_pushes _ _ _ _ _ (folded o value) Hr) as [H1 _]; [|exact (H1 Hidx)].
  rewrite prepare_candidates. apply in_map, Hin.
Qed.

(** X26: a candidate that contains the final query is returned, when the
    limit is at least the number of candidates. *)
Theorem search_returns_substring_matches (o : Options) (query : string)
    (source : Source) (limit : Z) (query' : string) (results : list string)
    (value : string) :
  query <> "" ->
  matching o query source = Ok (query', results) ->
  In value (source_values source) -> folded o value <> "" ->
  JS.indexOf (folded o value) query' <> (-1)%Z ->
  (Z.of_nat (length (source_values source)) <= limit)%Z ->
  exists rs, fst (search o query source limit) = Return rs
             /\ In (folded o value) rs.
Proof. apply search_substring_match. Qed.

Lemma search_returns_substring_matches_witness :
  exists rs,
    fst (search defaults "Pie"
           (SArray ["Apple Pie"; "banana split"; "cherry pie"]) 3) = Return rs
    /\ In (folded defaults "cherry pie") rs.
Proof.
  apply (search_returns_substring_matches defaults "Pie"
           (SArray ["Apple Pie"; "banana split"; "cherry pie"]) 3
           "pie"
           ["apple pie"; "cherry pie"; "apple pie"; "cherry pie"; "cherry pie"]
           "cherry pie").
  - discriminate.
  - vm_compute. reflexivity.
  - right; right; left; reflexivity.
  - discriminate.
  - vm_compute. discriminate.
  - cbn. lia.
Defined.



(** ** Tokens *)

Lemma append_cons (x : ascii) (a b : string) :
  String x a +:+ b = String x (a +:+ b).
Proof. reflexivity. Qed.

Lemma append_assoc (a b c : string) : (a +:+ b) +:+ c = a +:+ (b +:+ c).
Proof.
  induction a as [|x a IH]; [reflexivity|].
  rewrite !append_cons. f_equal. exact IH.
Qed.

Lemma append_empty_r (a : string) : a +:+ "" = a.
Proof.
  induction a as [|x a IH]; [reflexivity|].
  rewrite append_cons. f_equal. exact IH.
Qed.

Lemma length_append (a b : string) :
  String.length (a +:+ b) = String.length a + String.length b.
Proof.
  induction a as [|x a IH]; [reflexivity|].
  rewrite append_cons. cbn [String.length]. rewrite IH. reflexivity.
Qed.

Lemma prefix_split (sep s : string) :
  String.prefix sep s = true -> exists rest, s = sep +:+ rest.
Proof.
  revert s. induction sep as [|c sep IH]; intros s H; [exists s; reflexivity|].
  destruct s as [|d s]; [discriminate H|]. cbn in H.
  destruct (ascii_dec c d) as [->|]; [|discriminate H].
  destruct (IH s H) as [rest ->]. exists rest. reflexivity.
Qed.

Lemma split_go_nonempty (sep s : string) (skip : nat) (cur : string) :
  JS.split_go sep s skip cur <> [].
Proof.
  revert skip cur. induction s as [|c s IH]; intros skip cur;
    cbn [JS.split_go]; [intros E; discriminate E|].
  destruct skip; [|apply IH].
  destruct (String.prefix sep (String c s)); [intros E; discriminate E|apply IH].
Qed.

Lemma split_go_skip (sep p rest cur : string) :
  JS.split_go sep (p +:+ rest) (String.length p) cur = JS.split_go sep rest 0 cur.
Proof.
  induction p as [|c p IH]; [reflexivity|].
  rewrite append_cons. cbn [String.length JS.split_go]. exact IH.
Qed.

Lemma join_cons (sep x : string) (l : list string) :
  l <> [] -> JS.join sep (x :: l) = x +:+ sep +:+ JS.join sep l.
Proof. destruct l; [contradiction|reflexivity]. Qed.

Lemma join_split_go (sep : string) (n : nat) (s cur : string) :
  sep <> "" -> String.length s <= n ->
  JS.join sep (JS.split_go sep s 0 cur) = cur +:+ s.
Proof.
  intros Hsep. revert s cur. induction n as [|n IH]; intros s cur Hn.
  - destruct s; [|cbn in Hn; lia]. cbn. symmetry. apply append_empty_r.
  - destruct s as [|c s]; [cbn; symmetry; apply append_empty_r|].
    cbn [JS.split_go].
    destruct (String.prefix sep (String c s)) eqn:Hp.
    + destruct (prefix_split _ _ Hp) as [rest E].
      destruct sep as [|c0 sep']; [contradiction|].
      rewrite append_cons in E. injection E as -> ->.
      assert (E1 : String.length (String c0 sep') - 1 = String.length sep')
        by (cbn [String.length]; lia).
      rewrite E1, split_go_skip.
      rewrite join_cons by apply split_go_nonempty.
      rewrite IH.
      * reflexivity.
      * cbn [String.length] in Hn. rewrite length_append in Hn. lia.
    + rewrite IH by (cbn [String.length] in Hn; lia).
      rewrite append_assoc. reflexivity.
Qed.

Lemma join_chars (s : string) : JS.join "" (JS.chars s) = s.
Proof.
  induction s as [|c s IH]; [reflexivity|]. cbn [JS.chars].
  destruct s as [|d s]; [reflexivity|].
  rewrite join_cons by discriminate. rewrite IH. reflexivity.
Qed.

Lemma join_tokenize (input delimiter : string) :
  JS.join delimiter (tokenize input delimiter) = input.
Proof.
  unfold tokenize, JS.split. destruct delimiter as [|c d]; [apply join_chars|].
  apply (join_split_go (String c d) (String.length input)); [discriminate|lia].
Qed.

(** X13: joining the tokens of a string with the delimiter gives the
    string back, for every delimiter. *)
Theorem tokenize_join (input delimiter : string) :
  JS.join delimiter (tokenize input delimiter) = input.
Proof. apply join_tokenize. Qed.

(** For a non-empty delimiter [tokenize] returns at least one token, also
    for the empty string. *)
Theorem tokenize_nonempty (input delimiter : string) :
  delimiter <> "" -> tokenize input delimiter <> [].
Proof.
  intros H. unfold tokenize, JS.split. destruct delimiter; [contradiction|].
  apply split_go_nonempty.
Qed.

Lemma tokenize_nonempty_witness : tokenize "" " " <> [].
Proof. apply (tokenize_nonempty "" " "). discriminate. Defined.

(** ** Stemming *)

Lemma join_snoc (sep : string) (l : list string) (x y : string) :
  JS.join sep (l ++ [x +:+ y]) = JS.join sep (l ++ [x]) +:+ y.
Proof.
  induction l as [|a l IH]; [reflexivity|].
  cbn [app]. rewrite !join_cons by (destruct l; discriminate).
  rewrite IH, !append_assoc. reflexivity.
Qed.

Lemma join_last_sep (sep : string) (l : list string) (a b : string) :
  JS.join sep (l ++ [a; b]) = JS.join sep (l ++ [a +:+ sep +:+ b]).
Proof.
  induction l as [|x l IH]; [reflexivity|].
  cbn [app]. rewrite !join_cons by (destruct l; discriminate).
  rewrite IH. reflexivity.
Qed.

Lemma stem_loop (ts : list string) :
  fold_left stem_step (seq 0 (length ts)) (ts, "")
  = (map stem_word ts, JS.join " " (map stem_word ts)).
Proof.
  pose proof (fold_left_seq_inv
    (fun k st =>
       k <= length ts ->
       st = (map stem_word (take k ts) ++ drop k ts,
             if k <? length ts
             then JS.join " " (map stem_word (take k ts) ++ [""])
             else JS.join " " (map stem_word ts)))
    stem_step (length ts) 0 (ts, "")) as H.
  cbn beta in H. rewrite H; clear H.
  - rewrite Nat.ltb_irrefl, take_ge, drop_ge, app_nil_r by lia. reflexivity.
  - intros _. rewrite take_0, drop_0. cbn [map app].
    destruct ts; reflexivity.
  - intros k st Hk Hst _. rewrite Hst by lia. clear Hst st.
    destruct (lookup_lt_is_Some_2 ts k ltac:(lia)) as [t Ht].
    assert (Hlen : length (map stem_word (take k ts)) = k).
    { rewrite length_map, length_take. lia. }
    unfold stem_step.
    assert (Hl : (map stem_word (take k ts) ++ drop k ts) !! k = Some t).
    { rewrite lookup_app_r by lia. rewrite Hlen, Nat.sub_diag.
      rewrite lookup_drop, Nat.add_0_r. exact Ht. }
    rewrite Hl. fold (stem_word t).
    assert (Hins : <[k := stem_word t]> (map stem_word (take k ts) ++ drop k ts)
                   = map stem_word (take (S k) ts) ++ drop (S k) ts).
    { rewrite (take_S_r ts k t Ht), map_app. cbn [map].
      rewrite <- app_assoc. cbn [app].
      rewrite insert_app_r_alt by lia. rewrite Hlen, Nat.sub_diag.
      rewrite (drop_S ts t k Ht). reflexivity. }
    rewrite Hins.
    assert (Hlen' : length (map stem_word (take (S k) ts) ++ drop (S k) ts) = length ts).
    { rewrite <- Hins, length_insert, length_app, length_map, length_take,
        length_drop. lia. }
    rewrite Hlen'.
    destruct (Nat.ltb_spec k (length ts)) as [_|]; [|lia].
    rewrite (take_S_r ts k t Ht), map_app. cbn [map].
    destruct (Nat.ltb_spec k (length ts - 1)) as [Hlt|Hge].
    + destruct (Nat.ltb_spec (S k) (length ts)) as [_|]; [|lia].
      f_equal. rewrite <- join_snoc. cbn [String.append].
      rewrite <- app_assoc. cbn [app]. rewrite join_last_sep.
      rewrite append_empty_r. reflexivity.
    + destruct (Nat.ltb_spec (S k) (length ts)) as [|_]; [lia|].
      f_equal. rewrite <- join_snoc. cbn [String.append].
      assert (E : take (S k) ts = ts) by (apply take_ge; lia).
      rewrite <- E at 2. rewrite (take_S_r ts k t Ht), map_app. reflexivity.
  - lia.
Qed.

Lemma stem_maps (ts : list string) :
  stem (Some ts)
  = Ok (Some (map stem_word ts), JS.join " " (map stem_word ts)).
Proof. unfold stem. rewrite stem_loop. reflexivity. Qed.

(** X14: with stemming on, every token loses one trailing "s" if it has
    one, and the query is rebuilt as the stemmed tokens joined by single
    spaces. *)
Theorem stem_rebuilds_query (ts : list string) :
  stem (Some ts)
  = Ok (Some (map stem_word ts), JS.join " " (map stem_word ts)).
Proof. apply stem_maps. Qed.

Lemma lastChar_snoc (t : string) (c : ascii) :
  JS.lastChar (t +:+ String c "") = String c ""
  /\ JS.dropLast (t +:+ String c "") = t.
Proof.
  unfold JS.lastChar, JS.dropLast. rewrite length_append. cbn [String.length].
  replace (String.length t + 1 - 1) with (String.length t) by lia.
  induction t as [|x t [IH1 IH2]]; [split; reflexivity|].
  rewrite append_cons. cbn [String.length String.substring].
  split; [exact IH1|f_equal; exact IH2].
Qed.

(** A token that ends in "s" loses exactly that one character; any other
    token is left as it is. *)
Theorem stem_word_cuts_one_s (t : string) :
  stem_word (t +:+ "s") = t
  /\ (JS.lastChar t <> "s" -> stem_word t = t).
Proof.
  unfold stem_word. split.
  - destruct (lastChar_snoc t "s") as [-> ->]. reflexivity.
  - intros H. destruct (String.eqb_spec (JS.lastChar t) "s"); [contradiction|reflexivity].
Qed.

(** ** Letter case *)

Lemma lower_char_idem (c : ascii) : JS.lower_char (JS.lower_char c) = JS.lower_char c.
Proof. destruct c as [[] [] [] [] [] [] [] []]; vm_compute; reflexivity. Qed.

Lemma is_space_lower (c : ascii) : JS.is_space (JS.lower_char c) = JS.is_space c.
Proof. destruct c as [[] [] [] [] [] [] [] []]; vm_compute; reflexivity. Qed.

Lemma lower_char_space (c : ascii) :
  JS.lower_char c = " "%char <-> c = " "%char.
Proof.
  destruct c as [[] [] [] [] [] [] [] []]; vm_compute; split; intros H;
    first [reflexivity | discriminate H].
Qed.

Lemma toLowerCase_idem (s : string) :
  JS.toLowerCase (JS.toLowerCase s) = JS.toLowerCase s.
Proof.
  induction s as [|c s IH]; [reflexivity|].
  cbn [JS.toLowerCase]. rewrite lower_char_idem, IH. reflexivity.
Qed.

Lemma toLowerCase_app (a b : string) :
  JS.toLowerCase (a +:+ b) = JS.toLowerCase a +:+ JS.toLowerCase b.
Proof.
  induction a as [|c a IH]; [reflexivity|].
  rewrite append_cons. cbn [JS.toLowerCase]. rewrite append_cons, IH. reflexivity.
Qed.

Lemma trimStart_lower (s : string) :
  JS.trimStart (JS.toLowerCase s) = JS.toLowerCase (JS.trimStart s).
Proof.
  induction s as [|c s IH]; [reflexivity|].
  cbn [JS.toLowerCase JS.trimStart]. rewrite is_space_lower.
  destruct (JS.is_space c); [exact IH|reflexivity].
Qed.

Lemma trimEnd_lower (s : string) :
  JS.trimEnd (JS.toLowerCase s) = JS.toLowerCase (JS.trimEnd s).
Proof.
  induction s as [|c s IH]; [reflexivity|].
  cbn [JS.toLowerCase JS.trimEnd]. rewrite IH, is_space_lower.
  destruct (JS.trimEnd s); cbn [JS.toLowerCase]; [|reflexivity].
  destruct (JS.is_space c); reflexivity.
Qed.

Lemma trim_lower (s : string) :
  JS.trim (JS.toLowerCase s) = JS.toLowerCase (JS.trim s).
Proof. unfold JS.trim. rewrite trimStart_lower, trimEnd_lower. reflexivity. Qed.

Lemma prefix_space (c : ascii) (s : string) :
  String.prefix " " (String c s) = Ascii.eqb c " ".
Proof.
  cbn [String.prefix]. destruct (ascii_dec " " c) as [<-|Hne].
  - destruct s; reflexivity.
  - symmetry. apply Ascii.eqb_neq. congruence.
Qed.

Lemma eqb_space_lower (c : ascii) :
  Ascii.eqb (JS.lower_char c) " " = Ascii.eqb c " ".
Proof.
  destruct (Ascii.eqb_spec c " ") as [->|Hne]; [reflexivity|].
  apply Ascii.eqb_neq. intros H. exact (Hne (proj1 (lower_char_space c) H)).
Qed.

Lemma split_go_lower (s cur : string) :
  JS.split_go " " (JS.toLowerCase s) 0 (JS.toLowerCase cur)
  = map JS.toLowerCase (JS.split_go " " s 0 cur).
Proof.
  revert cur. induction s as [|c s IH]; intros cur; [reflexivity|].
  cbn [JS.toLowerCase JS.split_go]. rewrite !prefix_space, eqb_space_lower.
  destruct (Ascii.eqb c " ").
  - cbn [map String.length Nat.sub]. f_equal. apply (IH "").
  - rewrite <- IH, toLowerCase_app. reflexivity.
Qed.

Lemma tokenize_lower (s : string) :
  tokenize (JS.toLowerCase s) " " = map JS.toLowerCase (tokenize s " ").
Proof. apply (split_go_lower s ""). Qed.

Lemma is_stop_word_lower (w : string) :
  is_stop_word (JS.toLowerCase w) = is_stop_word w.
Proof. unfold is_stop_word. rewrite toLowerCase_idem. reflexivity. Qed.

Lemma join_lower (l : list string) :
  JS.toLowerCase (JS.join " " l) = JS.join " " (map JS.toLowerCase l).
Proof.
  induction l as [|x l IH]; [reflexivity|].
  destruct l as [|y l]; [reflexivity|].
  rewrite (join_cons " " x (y :: l)) by done. cbn [map].
  rewrite (join_cons " " (JS.toLowerCase x)) by done.
  rewrite !toLowerCase_app, IH. reflexivity.
Qed.

Lemma kept_words_lower (ws : list string) :
  omap id (map (fun w => if is_stop_word w then None else Some w)
             (map JS.toLowerCase ws))
  = map JS.toLowerCase
      (omap id (map (fun w => if is_stop_word w then None else Some w) ws)).
Proof.
  induction ws as [|w ws IH]; [reflexivity|].
  cbn [map]. rewrite is_stop_word_lower.
  destruct (is_stop_word w).
  - exact IH.
  - change (JS.toLowerCase w
            :: omap id (map (fun w => if is_stop_word w then None else Some w)
                          (map JS.toLowerCase ws))
            = JS.toLowerCase w
              :: map JS.toLowerCase
                   (omap id (map (fun w => if is_stop_word w then None else Some w)
                               ws))).
    f_equal. exact IH.
Qed.

Lemma removeStopWords_lower (q : string) :
  removeStopWords (JS.toLowerCase q) = JS.toLowerCase (removeStopWords q).
Proof.
  unfold removeStopWords. fold (tokenize (JS.toLowerCase q) " ").
  fold (tokenize q " "). rewrite tokenize_lower, join_lower, kept_words_lower.
  reflexivity.
Qed.

Lemma toLowerCase_eq_empty (q : string) :
  String.eqb (JS.toLowerCase q) "" = String.eqb q "".
Proof. destruct q; reflexivity. Qed.

Lemma prepare_lower_query (o : Options) (query : string) (source : Source) :
  caseSensitive o = false -> exclusions o = None -> source <> SOther ->
  prepare o (JS.toLowerCase query) source = prepare o query source.
Proof.
  intros Hc He Hs. unfold prepare. rewrite Hc, He.
  assert (E : JS.toLowerCase
                (JS.trim (if ignoreStopWords o
                          then removeStopWords (JS.toLowerCase query)
                          else JS.toLowerCase query))
              = JS.toLowerCase
                  (JS.trim (if ignoreStopWords o
                            then removeStopWords query else query))).
  { destruct (ignoreStopWords o); rewrite ?removeStopWords_lower, <- !trim_lower;
      rewrite !toLowerCase_idem; reflexivity. }
  destruct source as [a|kv|]; [| |contradiction]; rewrite E; reflexivity.
Qed.

(** X18: with case sensitivity off and no exclusion pattern, the letter
    case of the query does not matter: the lower-cased query gives the same
    result, and leaves the caller's source in the same state. *)
Theorem search_query_case_insensitive (o : Options) (query : string)
    (source : Source) (limit : Z) :
  caseSensitive o = false -> exclusions o = None ->
  search o (JS.toLowerCase query) source limit = search o query source limit.
Proof.
  intros Hc He. unfold search. rewrite toLowerCase_eq_empty.
  destruct (String.eqb query ""); cbn [negb]; [reflexivity|].
  assert (Hd : source = SOther \/ source <> SOther)
    by (destruct source; [right; discriminate..|left; reflexivity]).
  destruct Hd as [->|Hs].
  - unfold matching, prepare. rewrite Hc, He. cbn [p_tokens p_source p_caller p_query].
    destruct (stemming o); reflexivity.
  - unfold matching. rewrite (prepare_lower_query o query source Hc He Hs).
    reflexivity.
Qed.

Lemma search_query_case_insensitive_witness :
  search defaults (JS.toLowerCase "Apple PIE") (SArray ["apple pie"]) 1
  = search defaults "Apple PIE" (SArray ["apple pie"]) 1.
Proof.
  apply (search_query_case_insensitive defaults "Apple PIE" (SArray ["apple pie"]) 1);
    reflexivity.
Defined.

(** X19: with case sensitivity off, the letter case of the candidates does
    not matter: lower-casing the values of the source beforehand gives the
    same result. *)
Theorem search_source_case_insensitive (o : Options) (query : string) (limit : Z)
    (a : list string) (kv : list (string * string)) :
  caseSensitive o = false ->
  fst (search o query (SArray (lower_array a)) limit)
  = fst (search o query (SArray a) limit)
  /\ fst (search o query (SObject (lower_object kv)) limit)
     = fst (search o query (SObject kv) limit).
Proof.
  intros Hc.
  assert (Ha : lower_array (lower_array a) = lower_array a).
  { unfold lower_array. rewrite map_map. apply map_ext. intros x.
    apply toLowerCase_idem. }
  assert (Hkv : lower_object (lower_object kv) = lower_object kv).
  { unfold lower_object. rewrite map_map. apply map_ext. intros [k v].
    rewrite toLowerCase_idem. reflexivity. }
  unfold search, matching, prepare. rewrite Hc.
  destruct (negb (String.eqb query "")); cbn [fst p_tokens p_query p_source];
    rewrite ?Ha, ?Hkv; split; reflexivity.
Qed.

Lemma search_source_case_insensitive_witness :
  fst (search defaults "pie" (SArray (lower_array ["Apple PIE"])) 1)
  = fst (search defaults "pie" (SArray ["Apple PIE"]) 1)
  /\ fst (search defaults "pie" (SObject (lower_object [("k", "Apple PIE")])) 1)
     = fst (search defaults "pie" (SObject [("k", "Apple PIE")]) 1).
Proof.
  apply (search_source_case_insensitive defaults "pie" 1 ["Apple PIE"]
           [("k", "Apple PIE")]).
  reflexivity.
Defined.

(** ** Stop words *)

Lemma removeStopWords_filter (query : string) :
  removeStopWords query
  = JS.join " " (List.filter (fun w => negb (is_stop_word w)) (tokenize query " ")).
Proof.
  unfold removeStopWords. fold (tokenize query " "). f_equal.
  induction (tokenize query " ") as [|w ws IH]; [reflexivity|].
  cbn [map List.filter]. destruct (is_stop_word w); cbn [negb].
  - exact IH.
  - change (w :: omap id (map (fun w => if is_stop_word w then None else Some w) ws)
            = w :: List.filter (fun w => negb (is_stop_word w)) ws).
    f_equal. exact IH.
Qed.

Lemma has_space_app (a b : string) :
  has_space (a +:+ b) = has_space a || has_space b.
Proof.
  induction a as [|c a IH]; [reflexivity|].
  rewrite append_cons. cbn [has_space]. rewrite IH, orb_assoc. reflexivity.
Qed.

Lemma split_go_tokens (s cur t : string) :
  has_space cur = false -> In t (JS.split_go " " s 0 cur) -> has_space t = false.
Proof.
  revert cur. induction s as [|c s IH]; intros cur Hcur Hin.
  - destruct Hin as [<-|[]]. exact Hcur.
  - cbn [JS.split_go] in Hin. rewrite prefix_space in Hin.
    destruct (Ascii.eqb c " ") eqn:Hc.
    + destruct Hin as [<-|Hin]; [exact Hcur|]. apply (IH ""); [reflexivity|exact Hin].
    + apply (IH (cur +:+ String c "")); [|exact Hin].
      rewrite has_space_app, Hcur. cbn [has_space]. rewrite Hc. reflexivity.
Qed.

Lemma split_go_word (w rest cur : string) :
  has_space w = false ->
  JS.split_go " " (w +:+ rest) 0 cur = JS.split_go " " rest 0 (cur +:+ w).
Proof.
  revert cur. induction w as [|c w IH]; intros cur Hw.
  - rewrite append_empty_r. reflexivity.
  - cbn [has_space] in Hw. apply orb_false_iff in Hw as [Hc Hw].
    rewrite append_cons. cbn [JS.split_go]. rewrite prefix_space, Hc.
    rewrite IH by exact Hw. rewrite append_assoc. reflexivity.
Qed.

Lemma split_go_space (rest cur : string) :
  JS.split_go " " (" " +:+ rest) 0 cur = cur :: JS.split_go " " rest 0 "".
Proof.
  change (" " +:+ rest) with (String " " rest).
  cbn [JS.split_go]. rewrite prefix_space. reflexivity.
Qed.

Lemma tokenize_join_words (ws : list string) :
  ws <> [] -> (forall w, In w ws -> has_space w = false) ->
  tokenize (JS.join " " ws) " " = ws.
Proof.
  intros Hne Hws. unfold tokenize, JS.split.
  induction ws as [|w ws IH]; [contradiction|].
  destruct ws as [|w2 ws].
  - cbn [JS.join]. rewrite <- (append_empty_r w) at 1.
    rewrite split_go_word by (apply Hws; left; reflexivity). reflexivity.
  - rewrite join_cons by discriminate.
    rewrite split_go_word by (apply Hws; left; reflexivity).
    rewrite split_go_space. cbn [String.append]. f_equal.
    apply IH; [discriminate|]. intros x Hx. apply Hws. right; exact Hx.
Qed.

Lemma kept_words (query : string) :
  let kept := List.filter (fun w => negb (is_stop_word w)) (tokenize query " ") in
  forall w, In w kept -> has_space w = false /\ is_stop_word w = false.
Proof.
  intros kept w Hin. apply filter_In in Hin as [Hin Hp]. split.
  - eapply (split_go_tokens query ""); [reflexivity|exact Hin].
  - destruct (is_stop_word w); [discriminate|reflexivity].
Qed.

Lemma removeStopWords_tokens (query t : string) :
  In t (tokenize (removeStopWords query) " ") -> is_stop_word t = false.
Proof.
  rewrite removeStopWords_filter.
  destruct (List.filter (fun w => negb (is_stop_word w)) (tokenize query " "))
    as [|w ws] eqn:E.
  - intros [<-|[]]. reflexivity.
  - rewrite tokenize_join_words; [|discriminate|].
    + intros Hin. rewrite <- E in Hin. apply (kept_words query t Hin).
    + intros x Hx. rewrite <- E in Hx. apply (kept_words query x Hx).
Qed.

(** X15: no token of the string [removeStopWords] returns is a stop
    word. *)
Theorem removeStopWords_leaves_none (query t : string) :
  In t (tokenize (removeStopWords query) " ") -> is_stop_word t = false.
Proof. apply removeStopWords_tokens. Qed.

Lemma removeStopWords_leaves_none_witness : is_stop_word "mat" = false.
Proof.
  apply (removeStopWords_leaves_none "The cat is on a mat" "mat").
  right; left; reflexivity.
Defined.

(** X16: removing stop words twice is the same as removing them once, and a
    query without stop words is returned unchanged. *)
Theorem removeStopWords_idempotent (query : string) :
  removeStopWords (removeStopWords query) = removeStopWords query
  /\ ((forall t, In t (tokenize query " ") -> is_stop_word t = false) ->
      removeStopWords query = query).
Proof.
  assert (Hid : forall q,
             (forall t, In t (tokenize q " ") -> is_stop_word t = false) ->
             removeStopWords q = q).
  { intros q H. rewrite removeStopWords_filter, filter_all.
    - apply join_tokenize.
    - intros x Hx. rewrite (H x Hx). reflexivity. }
  split; [|apply Hid].
  apply Hid. intros t. apply removeStopWords_tokens.
Qed.

Lemma has_space_lower (s : string) : has_space (JS.toLowerCase s) = has_space s.
Proof.
  induction s as [|c s IH]; [reflexivity|].
  cbn [JS.toLowerCase has_space]. rewrite eqb_space_lower, IH. reflexivity.
Qed.

Lemma stop_word_no_space (w : string) : is_stop_word w = true -> has_space w = false.
Proof.
  unfold is_stop_word. intros H. apply existsb_exists in H as (x & Hx & He).
  apply String.eqb_eq in He. rewrite <- has_space_lower, He.
  repeat (destruct Hx as [<-|Hx]; [reflexivity|]). destruct Hx.
Qed.

Lemma removeStopWords_leading (w query : string) :
  is_stop_word w = true ->
  removeStopWords (w +:+ " " +:+ query) = removeStopWords query.
Proof.
  intros Hw. rewrite !removeStopWords_filter. f_equal.
  unfold tokenize, JS.split.
  rewrite split_go_word by (apply stop_word_no_space, Hw).
  rewrite split_go_space. change ("" +:+ w) with w.
  cbn [List.filter]. rewrite Hw. reflexivity.
Qed.

(** X17: with ignoreStopWords on, a stop word and a space put in front of a
    non-empty query change nothing: the search behaves as for the query
    alone. *)
Theorem search_ignores_leading_stop_word (o : Options) (w query : string)
    (source : Source) (limit : Z) :
  ignoreStopWords o = true -> is_stop_word w = true -> query <> "" ->
  search o (w +:+ " " +:+ query) source limit = search o query source limit.
Proof.
  intros Ho Hw Hq.
  assert (Hp : prepare o (w +:+ " " +:+ query) source = prepare o query source).
  { unfold prepare. rewrite Ho, (removeStopWords_leading w query Hw). reflexivity. }
  unfold search, matching. rewrite Hp.
  destruct (String.eqb_spec query "") as [|_]; [contradiction|].
  destruct (String.eqb_spec (w +:+ " " +:+ query) "") as [E|_]; [|reflexivity].
  destruct w; discriminate E.
Qed.

Lemma search_ignores_leading_stop_word_witness :
  search (mkOptions false 2 false None true) ("The" +:+ " " +:+ "cat")
    (SArray ["cat nap"]) 1
  = search (mkOptions false 2 false None true) "cat" (SArray ["cat nap"]) 1.
Proof.
  apply (search_ignores_leading_stop_word (mkOptions false 2 false None true)
           "The" "cat" (SArray ["cat nap"]) 1).
  - reflexivity.
  - reflexivity.
  - discriminate.
Defined.

(** ** The tokens and the tiers *)









Lemma indexOf_of_empty (e : string) : JS.indexOf e "" = 0%Z.
Proof. destruct e; reflexivity. Qed.

Lemma matching_blank (o : Options) (query : string) (source : Source) :
  JS.trim query = "" -> ignoreStopWords o = false -> exclusions o = None ->
  source <> SOther ->
  exists results, matching o query source = Ok ("", results).
Proof.
  intros Ht Hi He Hs. unfold matching.
  assert (Hp : p_query (prepare o query source) = ""
               /\ p_tokens (prepare o query source) = Some [""]).
  { unfold prepare. rewrite Hi, He. destruct (caseSensitive o).
    - rewrite Ht. split; reflexivity.
    - destruct source; [| |contradiction]; rewrite Ht; split; reflexivity. }
  destruct Hp as [-> ->].
  destruct (runTiers_defined o "" [""] (p_source (prepare o query source)))
    as (results & Hr).
  exists results.
  destruct (stemming o); [rewrite stem_maps|]; cbn [bind map];
    change (JS.join " " [stem_word ""]) with "";
    change (stem_word "") with ""; rewrite Hr; reflexivity.
Qed.

(** X29: a query that is not empty but consists of white space only matches
    every candidate: with no stop-word removal and no exclusion pattern,
    every candidate that is not the empty string is returned, when the
    limit is at least the number of candidates. *)
Theorem search_blank_query_returns_all (o : Options) (query : string)
    (source : Source) (limit : Z) (value : string) :
  query <> "" -> JS.trim query = "" ->
  ignoreStopWords o = false -> exclusions o = None ->
  In value (source_values source) -> folded o value <> "" ->
  (Z.of_nat (length (source_values source)) <= limit)%Z ->
  exists rs, fst (search o query source limit) = Return rs
             /\ In (folded o value) rs.
Proof.
  intros Hq Ht Hi He Hin Hne Hl.
  assert (Hs : source <> SOther) by (intros ->; destruct Hin).
  destruct (matching_blank o query source Ht Hi He Hs) as (results & Hm).
  apply (search_substring_match o query source limit "" results value);
    try assumption.
  rewrite indexOf_of_empty. discriminate.
Qed.

Lemma search_blank_query_returns_all_witness :
  exists rs,
    fst (search defaults " " (SArray ["apple pie"; "banana split"]) 2) = Return rs
    /\ In (folded defaults "banana split") rs.
Proof.
  apply (search_blank_query_returns_all defaults " "
           (SArray ["apple pie"; "banana split"]) 2 "banana split").
  - discriminate.
  - reflexivity.
  - reflexivity.
  - reflexivity.
  - right; left; reflexivity.
  - discriminate.
  - cbn. lia.
Defined.

(** ** More on the edit distance calculator *)


(** X2: what follows the first n characters of the second word, n the
    length of the first word, has no influence on the distance. *)
Theorem levenshtein_ignores_tail (word1 word2 rest : string) :
  JS.length word1 <= JS.length word2 ->
  levenshtein word1 (word2 +:+ rest) = levenshtein word1 word2.
Proof.
  intros Hle. apply levenshtein_reads_prefix. intros k Hk.
  unfold JS.charAt. rewrite <- String.append_correct1; [reflexivity|].
  unfold JS.length in *. lia.
Qed.

Lemma levenshtein_ignores_tail_witness :
  levenshtein "kitten" ("sitten" +:+ " on the mat") = levenshtein "kitten" "sitten".
Proof.
  apply (levenshtein_ignores_tail "kitten" "sitten" " on the mat").
  cbn. lia.
Defined.

(** ** More on the search facade *)



(** X25: when no value of the source is the empty string and the final
    query is not empty, the list returned by search is in ascending order
    of the engine's distance to the final query. *)
Theorem search_ranked_clean_source (o : Options) (query : string) (source : Source)
    (limit : Z) (query' : string) (results rs : list string) :
  matching o query source = Ok (query', results) ->
  fst (search o query source limit) = Return rs ->
  query' <> "" -> ~ In "" (source_values source) ->
  ranked query' rs.
Proof. apply search_ranked_without_blanks. Qed.

Lemma search_ranked_clean_source_witness :
  ranked "kitten" ["kitten"; "mitten"; "sitting"].
Proof.
  apply (search_ranked_clean_source (mkOptions false 3 false None false)
           "Kitten" (SObject [("a", "sitting"); ("b", "Mitten"); ("c", "kitten")])
           5 "kitten"
           ["sitting"; "mitten"; "kitten"; "kitten"; "kitten"]).
  - vm_compute; reflexivity.
  - vm_compute; reflexivity.
  - discriminate.
  - cbn. intros [H|[H|[H|[]]]]; discriminate H.
Defined.

(** ** Options *)

Lemma extendDefaults_skips {V} (source : gmap string V)
    (properties : list (string * V * bool)) (name : string) :
  (forall value, ~ In (name, value, true) properties) ->
  extendDefaults source properties !! name = source !! name.
Proof.
  unfold extendDefaults. revert source.
  induction properties as [|[[p v] own] ps IH]; intros source Hno; [reflexivity|].
  cbn [fold_left]. rewrite IH.
  - destruct own; [|reflexivity].
    apply lookup_insert_ne. intros ->. apply (Hno v). left; reflexivity.
  - intros value Hin. apply (Hno value). right; exact Hin.
Qed.

Lemma extendDefaults_takes {V} (source : gmap string V)
    (properties : list (string * V * bool)) (name : string) (value : V) :
  List.NoDup (map (fun p => fst (fst p)) properties) ->
  In (name, value, true) properties ->
  extendDefaults source properties !! name = Some value.
Proof.
  revert source.
  induction properties as [|[[p v] own] ps IH]; intros source Hnd Hin; [destruct Hin|].
  cbn [map fst] in Hnd. apply List.NoDup_cons_iff in Hnd as [Hnot Hnd].
  destruct Hin as [[= -> -> ->]|Hin].
  - change (extendDefaults (<[name := value]> source) ps !! name = Some value).
    rewrite extendDefaults_skips; [apply lookup_insert_eq|].
    intros v' Hin'. apply Hnot.
    apply in_map_iff. exists (name, v', true). split; [reflexivity|exact Hin'].
  - change (extendDefaults (if own then <[p := v]> source else source) ps !! name
            = Some value).
    apply IH; assumption.
Qed.

(** X30: [extendDefaults] merges shallowly: an own property of
    [properties] replaces the value of that name in [source], every other
    name keeps the value [source] had, and inherited properties are not
    copied. *)
Theorem extendDefaults_merges {V} (source : gmap string V)
    (properties : list (string * V * bool)) (name : string) :
  List.NoDup (map (fun p => fst (fst p)) properties) ->
  (forall value, In (name, value, true) properties ->
     extendDefaults source properties !! name = Some value)
  /\ ((forall value, ~ In (name, value, true) properties) ->
      extendDefaults source properties !! name = source !! name).
Proof.
  intros Hnd. split.
  - intros value Hin. apply extendDefaults_takes; assumption.
  - apply extendDefaults_skips.
Qed.

Lemma extendDefaults_merges_witness :
  (forall value, In ("flexibility", value, true)
                   [("flexibility", 3%Z, true); ("toString", 0%Z, false)] ->
     extendDefaults {[ "flexibility" := 2%Z; "stemming" := 0%Z ]}
       [("flexibility", 3%Z, true); ("toString", 0%Z, false)] !! "flexibility"
     = Some value)
  /\ ((forall value, ~ In ("flexibility", value, true)
                       [("flexibility", 3%Z, true); ("toString", 0%Z, false)]) ->
      extendDefaults {[ "flexibility" := 2%Z; "stemming" := 0%Z ]}
        [("flexibility", 3%Z, true); ("toString", 0%Z, false)] !! "flexibility"
      = ({[ "flexibility" := 2%Z; "stemming" := 0%Z ]} : gmap string Z)
          !! "flexibility").
Proof.
  apply (extendDefaults_merges {[ "flexibility" := 2%Z; "stemming" := 0%Z ]}
           [("flexibility", 3%Z, true); ("toString", 0%Z, false)] "flexibility").
  cbn. repeat constructor; cbn; intuition discriminate.
Defined.
